(** * The influxql map/reduce engine (influxql/engine.go)

    A shallow embedding of the query engine: jobs, mappers, rows, the
    job's [Execute], the raw and aggregate paths, the planner and the
    executor, followed by the properties of the specification.

    Conventions of the embedding.
    - Go's [int64] is a [Z] with the two's-complement wrap-around of
      every operation written out ([wrap64]); [int] is taken to be 64 bits.
    - A Go run-time panic (index out of range, failed type assertion,
      negative [make] length, call of a nil func) is the outcome [Panic].
    - The storage layer behind the mappers is an abstract [World]; a mapper
      method is a function on it.  Every call of a mapper method is also
      recorded in a call log, so that theorems can say which methods were
      called and in which order.
    - The output channel is the sequence of its events (sends, close) as a
      consumer that drains it observes them.
    - Pointers held by a job ([TagSet], [stmt], the mappers, the aggregate
      calls) are not nil; the jobs of an executor are distinct objects;
      a reducer is a pure function of the mapper outputs; mapper methods
      return; memory exhaustion is not modelled. *)

From Stdlib Require Import ZArith List String Bool Lia Sorted Permutation.
From Stdlib Require Import Strings.Byte.
Import ListNotations.
Open Scope string_scope.
Open Scope list_scope.
Open Scope Z_scope.

Set Implicit Arguments.

(** ** int64 arithmetic *)

Definition MinInt64 : Z := - 2 ^ 63.
Definition MaxInt64 : Z := 2 ^ 63 - 1.

Definition in_int64 (z : Z) : Prop := MinInt64 <= z <= MaxInt64.

Definition wrap64 (z : Z) : Z := (z + 2 ^ 63) mod 2 ^ 64 - 2 ^ 63.

Definition add64 (a b : Z) : Z := wrap64 (a + b).
Definition sub64 (a b : Z) : Z := wrap64 (a - b).
Definition mul64 (a b : Z) : Z := wrap64 (a * b).
(** Go's [/] truncates toward zero; the only division of the engine is
    guarded by [interval != 0]. *)
Definition quot64 (a b : Z) : Z := wrap64 (Z.quot a b).

(** ** time.Time (Go's standard library)

    [time.Unix(sec, nsec)] normalises [nsec] into [0, 1e9); [UTC] only
    changes the location; [Before] compares instants. *)

Inductive Location := Local | UTCLoc.

Record Time := { sec : Z; nsec : Z; loc : Location }.

Definition time_Unix (s n : Z) : Time :=
  if (n <? 0) || (1000000000 <=? n) then
    let q := quot64 n 1000000000 in
    let s1 := add64 s q in
    let n1 := sub64 n (mul64 q 1000000000) in
    if n1 <? 0
    then {| sec := sub64 s1 1; nsec := add64 n1 1000000000; loc := Local |}
    else {| sec := s1; nsec := n1; loc := Local |}
  else {| sec := s; nsec := n; loc := Local |}.

Definition UTC (t : Time) : Time :=
  {| sec := sec t; nsec := nsec t; loc := UTCLoc |}.

Definition Before (t u : Time) : Prop :=
  sec t < sec u \/ (sec t = sec u /\ nsec t < nsec u).

(** [time.Unix(0, t).UTC()], the time entry of a value row. *)
Definition utc (t : Z) : Time := UTC (time_Unix 0 t).

(** ** Dynamic values ([interface{}])

    Modelled from the spec: [rawQueryMapOutput] is declared with the map
    functions, outside [engine.go]; the engine reads its two fields
    [timestamp] and [values].  A [value] is what an [interface{}] of the
    engine can hold: nil, a time, a scalar, a field map
    ([map[string]interface{}], looked up by first binding, a missing key
    giving nil) or a slice of pointers to raw outputs (a pointer may be
    nil). *)

#[local] Set Warnings "-register-all".
Inductive value : Type :=
| VNil
| VTime (t : Time)
| VInt (n : Z)
| VString (s : string)
| VBool (b : bool)
| VFields (fields : list (string * value))
| VRaw (outputs : list (option rawQueryMapOutput))
with rawQueryMapOutput : Type :=
| RawOutput (timestamp : Z) (values : value).

Definition timestamp (v : rawQueryMapOutput) : Z :=
  match v with RawOutput t _ => t end.
Definition values (v : rawQueryMapOutput) : value :=
  match v with RawOutput _ x => x end.

Fixpoint field_lookup (fields : list (string * value)) (n : string) : value :=
  match fields with
  | [] => VNil
  | (k, x) :: rest => if String.eqb k n then x else field_lookup rest n
  end.

Definition error := string.

(** ** Plain data: Call, TagSet, Row *)

Module Call.
(** Modelled from the spec: [Call] is declared by the statement parser;
    a name and argument expressions. *)
Record t := { Name : string; Args : list string }.
End Call.

Module TagSet.
Record t := {
  Tags : list (string * string);
  Filters : list string;
  SeriesIDs : list Z;
  Key : list byte
}.

Definition AddFilter (ts : t) (id : Z) (filter : string) : t :=
  {| Tags := Tags ts;
     Filters := Filters ts ++ [filter];
     SeriesIDs := SeriesIDs ts ++ [id];
     Key := Key ts |}.
End TagSet.

Module Row.
Record t := {
  Name : string;
  Tags : list (string * string);
  Columns : list string;
  Values : list (list value);
  Err : option error
}.
End Row.

(** Modelled from the spec: [SelectStatement] and its accessors
    ([AggregateCalls], [NamesInSelect], [Dimensions.Normalize]) belong to
    the statement parser; the engine only reads their results. *)
Record SelectStatement (Expr : Type) := {
  Condition : Expr;
  AggregateCalls : list Call.t;
  NamesInSelect : list string;
  Dimensions_Normalize : (Z * list string) * option error
}.

(** ** bytes.Compare *)

Fixpoint bytes_Compare (a b : list byte) : Z :=
  match a, b with
  | [], [] => 0
  | [], _ :: _ => -1
  | _ :: _, [] => 1
  | x :: a', y :: b' =>
      match N.compare (Byte.to_N x) (Byte.to_N y) with
      | Lt => -1
      | Gt => 1
      | Eq => bytes_Compare a' b'
      end
  end.

Definition bytes_of_string (s : string) : list byte := list_byte_of_string s.

(** ** Mappers, jobs and the execution monad *)

Section Engine.

Variable World : Type.
Variable Expr : Type.

(** A reducer; a nil func is [None]. *)
Definition ReduceFunc := option (list value -> value).

(** The reducer registry ([InitializeReduceFunc]) is declared with the map
    functions; the engine is verified for any registry. *)
Variable InitializeReduceFunc : option Call.t -> ReduceFunc * option error.

(** [Reduce(cond, &nowValuer{Now: now})] of the expression evaluator. *)
Variable Reduce_now : Time -> Expr -> Expr.

(** The [Mapper] interface.  [mid] is the identity of the object. *)
Record Mapper := {
  mid : nat;
  mOpen : World -> option error * World;
  mClose : World -> World;
  mBegin : option Call.t -> Z -> World -> option error * World;
  mNextInterval : Z -> World -> (value * option error) * World
}.

Inductive MapperCall :=
| OpenCall (id : nat)
| CloseCall (id : nat)
| BeginCall (id : nat) (c : option Call.t) (start : Z)
| NextIntervalCall (id : nat) (interval : Z).

Inductive ChanEvent :=
| Send (r : Row.t)
| CloseChan.

Record St := {
  world : World;
  calls : list MapperCall;
  out : list ChanEvent
}.

Inductive Outcome (A : Type) :=
| Ret (a : A) (s : St)
| Panic (s : St).
Arguments Panic {A} s.

Definition M (A : Type) := St -> Outcome A.

Definition ret {A} (a : A) : M A := fun s => Ret a s.
Definition bind {A B} (c : M A) (k : A -> M B) : M B :=
  fun s => match c s with
           | Ret a s' => k a s'
           | Panic s' => Panic s'
           end.
Definition panic {A} : M A := fun s => Panic s.

Notation "x <- c ;; k" := (bind c (fun x => k))
  (at level 100, c at next level, right associativity).
Notation "c ;;; k" := (bind c (fun _ => k))
  (at level 100, right associativity).

(** [out <- r] *)
Definition send (r : Row.t) : M unit :=
  fun s => Ret tt {| world := world s; calls := calls s;
                     out := out s ++ [Send r] |}.

(** [close(out)] *)
Definition close_chan : M unit :=
  fun s => Ret tt {| world := world s; calls := calls s;
                     out := out s ++ [CloseChan] |}.

Definition log_call (c : MapperCall) (w : World) (s : St) : St :=
  {| world := w; calls := calls s ++ [c]; out := out s |}.

Definition call_Open (mm : Mapper) : M (option error) :=
  fun s => let '(e, w) := mOpen mm (world s) in
           Ret e (log_call (OpenCall (mid mm)) w s).

Definition call_Close (mm : Mapper) : M unit :=
  fun s => Ret tt (log_call (CloseCall (mid mm)) (mClose mm (world s)) s).

Definition call_Begin (mm : Mapper) (c : option Call.t) (start : Z)
  : M (option error) :=
  fun s => let '(e, w) := mBegin mm c start (world s) in
           Ret e (log_call (BeginCall (mid mm) c start) w s).

Definition call_NextInterval (mm : Mapper) (interval : Z)
  : M (value * option error) :=
  fun s => let '(r, w) := mNextInterval mm interval (world s) in
           Ret r (log_call (NextIntervalCall (mid mm) interval) w s).

Record MapReduceJob := {
  MeasurementName : string;
  TagSet : TagSet.t;
  Mappers : list Mapper;
  TMin : Z;
  TMax : Z;
  key : option (list byte);
  interval : Z;
  stmt : SelectStatement Expr
}.

(** [func (m *MapReduceJob) Close()] *)
Fixpoint Close_loop (l : list Mapper) : M unit :=
  match l with
  | [] => ret tt
  | mm :: rest => call_Close mm ;;; Close_loop rest
  end.

Definition MapReduceJob_Close (m : MapReduceJob) : M unit :=
  Close_loop (Mappers m).

(** [func (m *MapReduceJob) Open() error] *)
Fixpoint Open_loop (m : MapReduceJob) (l : list Mapper) : M (option error) :=
  match l with
  | [] => ret None
  | mm :: rest =>
      err <- call_Open mm ;;
      match err with
      | Some e => MapReduceJob_Close m ;;; ret (Some e)
      | None => Open_loop m rest
      end
  end.

Definition MapReduceJob_Open (m : MapReduceJob) : M (option error) :=
  Open_loop m (Mappers m).

(** [func (m *MapReduceJob) Key() []byte]; the key is cached in the job. *)
Definition MapReduceJob_Key (m : MapReduceJob) : list byte * MapReduceJob :=
  match key m with
  | Some k => (k, m)
  | None =>
      let k := bytes_of_string (MeasurementName m) ++ TagSet.Key (TagSet m) in
      (k, {| MeasurementName := MeasurementName m; TagSet := TagSet m;
             Mappers := Mappers m; TMin := TMin m; TMax := TMax m;
             key := Some k; interval := interval m; stmt := stmt m |})
  end.

Definition set_interval (m : MapReduceJob) (i : Z) : MapReduceJob :=
  {| MeasurementName := MeasurementName m; TagSet := TagSet m;
     Mappers := Mappers m; TMin := TMin m; TMax := TMax m;
     key := key m; interval := i; stmt := stmt m |}.

Definition set_stmt (m : MapReduceJob) (st : SelectStatement Expr)
  : MapReduceJob :=
  {| MeasurementName := MeasurementName m; TagSet := TagSet m;
     Mappers := Mappers m; TMin := TMin m; TMax := TMax m;
     key := key m; interval := interval m; stmt := st |}.

(** ** processAggregate *)

(** [for _, mm := range m.Mappers { mm.Begin(c, m.TMin) }] *)
Fixpoint Begin_loop (m : MapReduceJob) (c : option Call.t) (l : list Mapper)
  : M (option error) :=
  match l with
  | [] => ret None
  | mm :: rest =>
      err <- call_Begin mm c (TMin m) ;;
      match err with
      | Some e => ret (Some e)
      | None => Begin_loop m c rest
      end
  end.

(** [l[j] = x] for an index in range. *)
Fixpoint set_nth {A} (l : list A) (j : nat) (x : A) : list A :=
  match l, j with
  | [], _ => []
  | _ :: t, O => x :: t
  | h :: t, S j' => h :: set_nth t j' x
  end.

(** [for j, mm := range m.Mappers { res, err := mm.NextInterval(..) }] *)
Fixpoint NextInterval_loop (m : MapReduceJob) (l : list Mapper) (j : nat)
  (mapperOutputs : list value) : M (list value * option error) :=
  match l with
  | [] => ret (mapperOutputs, None)
  | mm :: rest =>
      r <- call_NextInterval mm (interval m) ;;
      match snd r with
      | Some e => ret (mapperOutputs, Some e)
      | None => NextInterval_loop m rest (S j) (set_nth mapperOutputs j (fst r))
      end
  end.

(** [for i, _ := range resultValues]: the buckets still to fill are
    [todo]; the result is the updated buckets. *)
Fixpoint bucket_loop (m : MapReduceJob) (reduceFunc : ReduceFunc)
  (todo : list (list value)) (mapperOutputs : list value)
  : M (list (list value) * option error) :=
  match todo with
  | [] => ret ([], None)
  | bucket :: rest =>
      r <- NextInterval_loop m (Mappers m) 0 mapperOutputs ;;
      match snd r with
      | Some e => ret (bucket :: rest, Some e)
      | None =>
          match reduceFunc with
          | None => panic
          | Some f =>
              r' <- bucket_loop m reduceFunc rest (fst r) ;;
              ret ((bucket ++ [f (fst r)]) :: fst r', snd r')
          end
      end
  end.

Definition processAggregate (m : MapReduceJob) (c : option Call.t)
  (reduceFunc : ReduceFunc) (resultValues : list (list value))
  : M (list (list value) * option error) :=
  let mapperOutputs := repeat VNil (List.length (Mappers m)) in
  err <- Begin_loop m c (Mappers m) ;;
  match err with
  | Some e => ret (resultValues, Some e)
  | None => bucket_loop m reduceFunc resultValues mapperOutputs
  end.

(** ** processRawResults

    The function has no effect on the mappers or the channel; [None] is a
    run-time panic. *)

(** One value row of the multi-field case. *)
Definition raw_fields_row (selectNames : list string) (v : rawQueryMapOutput)
  (fields : list (string * value)) : list value :=
  map (fun n => if String.eqb n "time" then VTime (utc (timestamp v))
                else field_lookup fields n) selectNames.

(** The body of [for _, v := range ...] for one [v]. *)
Definition raw_row (selectNames : list string) (singleValue : bool)
  (v : option rawQueryMapOutput) : option (list value) :=
  match v with
  | None => None
  | Some v =>
      if singleValue then
        match values v with
        | VNil => None
        | x => Some [VTime (utc (timestamp v)); x]
        end
      else
        match values v with
        | VFields fields => Some (raw_fields_row selectNames v fields)
        | _ => None
        end
  end.

Fixpoint raw_rows (selectNames : list string) (singleValue : bool)
  (l : list (option rawQueryMapOutput)) (acc : list (list value))
  : option (list (list value)) :=
  match l with
  | [] => Some acc
  | v :: rest =>
      match raw_row selectNames singleValue v with
      | None => None
      | Some vals => raw_rows selectNames singleValue rest (acc ++ [vals])
      end
  end.

Definition processRawResults (m : MapReduceJob)
  (resultValues : list (list value)) : option Row.t :=
  let selectNames := NamesInSelect (stmt m) in
  let hasTime := existsb (fun n => String.eqb n "time") selectNames in
  let selectNames := if hasTime then selectNames else "time" :: selectNames in
  let singleValue := Nat.eqb (List.length selectNames) 2 in
  let row := {| Row.Name := MeasurementName m;
                Row.Tags := TagSet.Tags (TagSet m);
                Row.Columns := selectNames;
                Row.Values := [];
                Row.Err := None |} in
  match resultValues with
  | [] =>
      (* len(resultValues) == 0: the branch is taken and the argument
         len(resultValues[0]) of warn is evaluated: index out of range *)
      None
  | first :: _ =>
      if negb (Nat.eqb (List.length first) 2) then Some row
      else
        match nth 1 first VNil with
        | VRaw outputs =>
            match raw_rows selectNames singleValue outputs [] with
            | None => None
            | Some vals =>
                Some {| Row.Name := MeasurementName m;
                        Row.Tags := TagSet.Tags (TagSet m);
                        Row.Columns := selectNames;
                        Row.Values := vals;
                        Row.Err := None |}
            end
        | _ => None
        end
  end.

(** ** Execute *)

(** The first loop of [Execute]: one reducer per aggregate call, stopping
    at the first failure. *)
Fixpoint init_reduceFuncs (aggregates : list Call.t)
  : list ReduceFunc * option error :=
  match aggregates with
  | [] => ([], None)
  | c :: rest =>
      let '(reduceFunc, err) := InitializeReduceFunc (Some c) in
      match err with
      | Some e => ([], Some e)
      | None =>
          let '(fs, err') := init_reduceFuncs rest in
          (reduceFunc :: fs, err')
      end
  end.

(** [for i, c := range aggregates { m.processAggregate(c, reduceFuncs[i],
    resultValues) }] *)
Fixpoint aggregate_loop (m : MapReduceJob) (aggregates : list (option Call.t))
  (reduceFuncs : list ReduceFunc) (resultValues : list (list value))
  : M (list (list value) * option error) :=
  match aggregates with
  | [] => ret (resultValues, None)
  | c :: rest =>
      match reduceFuncs with
      | [] => panic
      | f :: fs =>
          r <- processAggregate m c f resultValues ;;
          match snd r with
          | Some e => ret (fst r, Some e)
          | None => aggregate_loop m rest fs (fst r)
          end
      end
  end.

Definition intervalTop (m : MapReduceJob) : Z :=
  add64 (mul64 (quot64 (TMax m) (interval m)) (interval m)) (interval m).

(** The job sees a single bucket when it has no start time, no interval,
    or is a raw query. *)
Definition single_bucket (m : MapReduceJob) : bool :=
  (TMin m =? 0) || (interval m =? 0)
  || Nat.eqb (List.length (AggregateCalls (stmt m))) 0.

Definition pointCountInResult (m : MapReduceJob) : Z :=
  if single_bucket m then 1
  else quot64 (sub64 (intervalTop m) (TMin m)) (interval m).

(** The interval after the bucket arithmetic ([m.interval] is overwritten
    in the single-bucket case). *)
Definition effective_interval (m : MapReduceJob) : Z :=
  if single_bucket m then sub64 (TMax m) (TMin m) else interval m.

(** [resultValues] after the initialisation loop. *)
Definition initial_resultValues (m : MapReduceJob) (count : nat)
  : list (list value) :=
  map (fun i : nat =>
         [VTime (utc (add64 (TMin m) (mul64 (Z.of_nat i) (interval m))))])
      (seq 0 count).

Definition error_row (m : MapReduceJob) (e : error) : Row.t :=
  {| Row.Name := MeasurementName m;
     Row.Tags := TagSet.Tags (TagSet m);
     Row.Columns := [];
     Row.Values := [];
     Row.Err := Some e |}.

(** [func (m *MapReduceJob) Execute(out chan *Row)]; the result is the
    job after the call. *)
Definition MapReduceJob_Execute (m : MapReduceJob) : M MapReduceJob :=
  let aggregates := AggregateCalls (stmt m) in
  let '(reduceFuncs, err) := init_reduceFuncs aggregates in
  match err with
  | Some e =>
      send {| Row.Name := ""; Row.Tags := []; Row.Columns := [];
              Row.Values := []; Row.Err := Some e |} ;;;
      ret m
  | None =>
      let isRaw := Nat.eqb (List.length aggregates) 0 in
      let aggregates' :=
        if isRaw then [None] else map (@Some Call.t) aggregates in
      let reduceFuncs' :=
        if isRaw then reduceFuncs ++ [fst (InitializeReduceFunc None)]
        else reduceFuncs in
      let count := pointCountInResult m in
      let m' :=
        if single_bucket m then set_interval m (sub64 (TMax m) (TMin m))
        else m in
      if count <? 0 then panic
      else
        let resultValues := initial_resultValues m' (Z.to_nat count) in
        r <- aggregate_loop m' aggregates' reduceFuncs' resultValues ;;
        match snd r with
        | Some e => send (error_row m' e) ;;; ret m'
        | None =>
            if isRaw then
              match processRawResults m' (fst r) with
              | None => panic
              | Some row => send row ;;; ret m'
              end
            else
              send {| Row.Name := MeasurementName m';
                      Row.Tags := TagSet.Tags (TagSet m');
                      Row.Columns := "time" :: map Call.Name aggregates;
                      Row.Values := fst r;
                      Row.Err := None |} ;;;
              ret m'
        end
  end.

(** ** Planner and Executor *)

Record Tx := {
  CreateMapReduceJobs :
    SelectStatement Expr -> list string -> World ->
    (list MapReduceJob + error) * World
}.

Record DB := { Begin : World -> (Tx + error) * World }.

Record Planner := { pDB : DB; Now : World -> Time }.

Record Executor := {
  tx : Tx;
  Executor_stmt : SelectStatement Expr;
  jobs : list MapReduceJob;
  Executor_interval : Z
}.

Definition set_Condition (st : SelectStatement Expr) (c : Expr)
  : SelectStatement Expr :=
  {| Condition := c;
     AggregateCalls := AggregateCalls st;
     NamesInSelect := NamesInSelect st;
     Dimensions_Normalize := Dimensions_Normalize st |}.

Definition set_world (s : St) (w : World) : St :=
  {| world := w; calls := calls s; out := out s |}.

(** [func (p *Planner) Plan(stmt)], returning the executor or an error *)
Definition Planner_Plan (p : Planner) (st : SelectStatement Expr)
  : M (Executor + error) :=
  fun s =>
    let now := Now p (world s) in
    let st' := set_Condition st (Reduce_now now (Condition st)) in
    match Begin (pDB p) (world s) with
    | (inr e, w) => Ret (inr e) (set_world s w)
    | (inl t, w) =>
        match Dimensions_Normalize st' with
        | (_, Some e) => Ret (inr e) (set_world s w)
        | ((i, tags), None) =>
            match CreateMapReduceJobs t st' tags w with
            | (inr e, w') => Ret (inr e) (set_world s w')
            | (inl js, w') =>
                Ret (inl {| tx := t;
                            Executor_stmt := st';
                            jobs := map (fun j => set_stmt (set_interval j i) st') js;
                            Executor_interval := i |})
                    (set_world s w')
            end
        end
    end.

(** [func (e *Executor) close()] *)
Fixpoint close_jobs (l : list MapReduceJob) : M unit :=
  match l with
  | [] => ret tt
  | j :: rest => MapReduceJob_Close j ;;; close_jobs rest
  end.

Definition Executor_close (e : Executor) : M unit := close_jobs (jobs e).

(** [for _, j := range e.jobs { j.Execute(out) }]; the result is the jobs
    after their execution. *)
Fixpoint run_jobs (l : list MapReduceJob) : M (list MapReduceJob) :=
  match l with
  | [] => ret []
  | j :: rest =>
      j' <- MapReduceJob_Execute j ;;
      rest' <- run_jobs rest ;;
      ret (j' :: rest')
  end.

(** [func (e *Executor) execute(out chan *Row)]: the deferred [e.close()]
    also runs when a job panics. *)
Definition Executor_execute (e : Executor) : M unit :=
  fun s =>
    match run_jobs (jobs e) s with
    | Ret js s1 => (close_chan ;;; close_jobs js) s1
    | Panic s1 =>
        match Executor_close e s1 with
        | Ret _ s2 => Panic s2
        | Panic s2 => Panic s2
        end
    end.

(** The loop of [Execute] that opens the jobs. *)
Fixpoint open_jobs (e : Executor) (l : list MapReduceJob) : M (option error) :=
  match l with
  | [] => ret None
  | j :: rest =>
      err <- MapReduceJob_Open j ;;
      match err with
      | Some er => Executor_close e ;;; ret (Some er)
      | None => open_jobs e rest
      end
  end.

(** [func (e *Executor) Execute() (<-chan *Row, error)]: the emission task
    is run to its end, its channel events are those a consumer receives. *)
Definition Executor_Execute (e : Executor) : M (option error) :=
  err <- open_jobs e (jobs e) ;;
  match err with
  | Some er => ret (Some er)
  | None => Executor_execute e ;;; ret None
  end.

(** [MapReduceJobs.Less] *)
Definition MapReduceJobs_Less (a b : MapReduceJob) : bool :=
  bytes_Compare (fst (MapReduceJob_Key a)) (fst (MapReduceJob_Key b)) =? -1.

End Engine.

Arguments Ret {World A} a s.
Arguments Panic {World A} s.


(** ** Sort interfaces and tag hashes

    [MapReduceJobs] and [Rows] implement [sort.Interface]; [Len] is the
    length of the list. *)

(** [a[i], a[j] = a[j], a[i]]: both elements are read (an index out of
    range panics, [None]), then [a[i]] and [a[j]] are written in turn. *)
Definition swap {A} (a : list A) (i j : nat) : option (list A) :=
  match nth_error a i, nth_error a j with
  | Some x, Some y => Some (set_nth (set_nth a i y) j x)
  | _, _ => None
  end.

Definition MapReduceJobs_Swap {World Expr}
  (a : list (MapReduceJob World Expr)) (i j : nat) := swap a i j.

Definition Rows_Swap (p : list Row.t) (i j : nat) := swap p i j.

(** Go's [<] on strings: bytewise lexicographic order. *)
Definition string_lt (a b : string) : bool :=
  bytes_Compare (bytes_of_string a) (bytes_of_string b) =? -1.

(** [sort.Strings]: the list in ascending order, computed by insertion. *)
Fixpoint insert_string (x : string) (l : list string) : list string :=
  match l with
  | [] => [x]
  | y :: rest =>
      if string_lt y x then y :: insert_string x rest else x :: y :: rest
  end.

Fixpoint sort_Strings (l : list string) : list string :=
  match l with
  | [] => []
  | x :: rest => insert_string x (sort_Strings rest)
  end.

(** [hash/fnv], 64-bit FNV-1a: [New64a], [Write] and [Sum64]. *)
Definition fnv_offset64 : Z := 14695981039346656037.
Definition fnv_prime64 : Z := 1099511628211.

Definition fnv_Write (h : Z) (p : list byte) : Z :=
  fold_left
    (fun h c => (Z.lxor h (Z.of_N (Byte.to_N c)) * fnv_prime64) mod 2 ^ 64)
    p h.

(** [r.Tags[k]]: a map is an association list with distinct keys; a
    missing key gives the empty string. *)
Fixpoint tag_lookup (tags : list (string * string)) (k : string) : string :=
  match tags with
  | [] => ""
  | (k', v) :: rest => if String.eqb k' k then v else tag_lookup rest k
  end.

(** [func (r *Row) tagsKeys() []string]: the slice is made with
    [len(r.Tags)] empty strings and the keys are appended to it; [range]
    visits the tags in the order of the list. *)
Definition tagsKeys (r : Row.t) : list string :=
  sort_Strings (repeat "" (List.length (Row.Tags r)) ++ map fst (Row.Tags r)).

(** [func (r *Row) tagsHash() uint64] *)
Definition tagsHash (r : Row.t) : Z :=
  fold_left
    (fun h k =>
       fnv_Write (fnv_Write h (bytes_of_string k))
                 (bytes_of_string (tag_lookup (Row.Tags r) k)))
    (tagsKeys r) fnv_offset64.

(** [func (p Rows) Less(i, j int) bool] on the two rows. *)
Definition Rows_Less (a b : Row.t) : bool :=
  if negb (String.eqb (Row.Name a) (Row.Name b))
  then string_lt (Row.Name a) (Row.Name b)
  else tagsHash a <? tagsHash b.

(** [func NewPlanner(db DB) *Planner]; [clock] is [time.Now]. *)
Definition NewPlanner {World Expr} (clock : World -> Time) (db : DB World Expr)
  : Planner World Expr :=
  {| pDB := db; Now := clock |}.

(** ** Observations used by the statements *)

Unset Implicit Arguments.

Section Observations.

Context {World Expr : Type}.

(** The world after every mapper of [l] was opened without error. *)
Fixpoint opened (l : list (Mapper World)) (w : World) : option World :=
  match l with
  | [] => Some w
  | mm :: rest =>
      match mOpen mm w with
      | (None, w') => opened rest w'
      | (Some _, _) => None
      end
  end.

(** The world after every mapper of [l] was closed. *)
Fixpoint closed (l : list (Mapper World)) (w : World) : World :=
  match l with
  | [] => w
  | mm :: rest => closed rest (mClose mm w)
  end.

(** The rows sent on the channel. *)
Fixpoint emitted_rows (evs : list (ChanEvent)) : list Row.t :=
  match evs with
  | [] => []
  | Send r :: rest => r :: emitted_rows rest
  | CloseChan :: rest => emitted_rows rest
  end.

(** The jobs are listed in ascending (bytewise) order of their tag set
    key. *)
Definition keys_ascending (js : list (MapReduceJob World Expr)) : Prop :=
  StronglySorted
    (fun a b => bytes_Compare (TagSet.Key (TagSet a)) (TagSet.Key (TagSet b)) <> 1)
    js.

(** The fields of a job are [int64] values. *)
Definition int64_job (m : MapReduceJob World Expr) : Prop :=
  in_int64 (TMin m) /\ in_int64 (TMax m) /\ in_int64 (interval m).

(** [emits_in_order irf js s rows s']: starting in [s], each job of [js]
    in turn is executed, returns and has sent its row; [rows] are these
    rows in the order of [js], and [s'] is the state after the last job. *)
Inductive emits_in_order
  (irf : option Call.t -> ReduceFunc * option error)
  : list (MapReduceJob World Expr) -> St World -> list Row.t -> St World -> Prop :=
| emits_nil s : emits_in_order irf [] s [] s
| emits_cons j js s j' s1 r rows s' :
    MapReduceJob_Execute irf j s = Ret j' s1 ->
    out s1 = out s ++ [Send r] ->
    emits_in_order irf js s1 rows s' ->
    emits_in_order irf (j :: js) s (r :: rows) s'.

(** The tag set after [AddFilter] was called for each pair of [l] in
    turn. *)
Definition add_filters (ts : TagSet.t) (l : list (Z * string)) : TagSet.t :=
  fold_left (fun ts p => TagSet.AddFilter ts (fst p) (snd p)) l ts.

(** [a <= b] on strings, as [sort.Strings] leaves neighbours. *)
Definition string_le (a b : string) : Prop := string_lt b a = false.

(** The identities of the mappers of the jobs, job after job. *)
Definition all_mapper_ids (js : list (MapReduceJob World Expr)) : list nat :=
  flat_map (fun j => map (@mid World) (Mappers j)) js.

(** The world after every mapper of every job was opened without
    error. *)
Fixpoint opened_jobs (js : list (MapReduceJob World Expr)) (w : World)
  : option World :=
  match js with
  | [] => Some w
  | j :: rest =>
      match opened (Mappers j) w with
      | Some w' => opened_jobs rest w'
      | None => None
      end
  end.

(** The world after every mapper of every job was closed. *)
Fixpoint closed_jobs (js : list (MapReduceJob World Expr)) (w : World)
  : World :=
  match js with
  | [] => w
  | j :: rest => closed_jobs rest (closed (Mappers j) w)
  end.

(** The world after [Begin(c, start)] succeeded on every mapper of [l]. *)
Fixpoint begun (l : list (Mapper World)) (c : option Call.t) (start : Z)
  (w : World) : option World :=
  match l with
  | [] => Some w
  | mm :: rest =>
      match mBegin mm c start w with
      | (None, w') => begun rest c start w'
      | (Some _, _) => None
      end
  end.

(** The outputs of one [NextInterval(i)] on every mapper of [l] in order,
    when none fails, and the world they leave. *)
Fixpoint next_outputs (l : list (Mapper World)) (i : Z) (w : World)
  : option (list value * World) :=
  match l with
  | [] => Some ([], w)
  | mm :: rest =>
      match mNextInterval mm i w with
      | ((v, None), w') =>
          match next_outputs rest i w' with
          | Some (vs, w'') => Some (v :: vs, w'')
          | None => None
          end
      | ((_, Some _), _) => None
      end
  end.

(** [n] such rounds one after the other. *)
Fixpoint rounds (n : nat) (l : list (Mapper World)) (i : Z) (w : World)
  : option (list (list value) * World) :=
  match n with
  | O => Some ([], w)
  | S n' =>
      match next_outputs l i w with
      | Some (vs, w') =>
          match rounds n' l i w' with
          | Some (vss, w'') => Some (vs :: vss, w'')
          | None => None
          end
      | None => None
      end
  end.

(** The aggregate calls as [Execute] passes them to the mappers: the nil
    call alone for a raw query. *)
Definition passes (m : MapReduceJob World Expr) : list (option Call.t) :=
  if Nat.eqb (List.length (AggregateCalls (stmt m))) 0 then [None]
  else map (@Some Call.t) (AggregateCalls (stmt m)).

(** The mapper calls of one aggregate pass over [count] buckets: [Begin]
    on every mapper, then for each bucket [NextInterval] on every
    mapper. *)
Definition pass_calls (m : MapReduceJob World Expr) (count : nat)
  (c : option Call.t) : list MapperCall :=
  map (fun mm => BeginCall (mid mm) c (TMin m)) (Mappers m)
  ++ List.concat
       (repeat (map (fun mm => NextIntervalCall (mid mm) (interval m))
                    (Mappers m))
               count).

(** A [Begin] at [start] or a [NextInterval] of [i]. *)
Definition work_call (start i : Z) (c : MapperCall) : Prop :=
  match c with
  | BeginCall _ _ t => t = start
  | NextIntervalCall _ i' => i' = i
  | OpenCall _ | CloseCall _ => False
  end.

(** A [Begin] or a [NextInterval]. *)
Definition is_work_call (c : MapperCall) : Prop :=
  match c with
  | BeginCall _ _ _ | NextIntervalCall _ _ => True
  | OpenCall _ | CloseCall _ => False
  end.

(** A computation whose mapper calls all satisfy [P], whether it returns
    or panics. *)
Definition logs_only (P : MapperCall -> Prop) {A} (c : M World A) : Prop :=
  forall s, exists l,
    Forall P l /\
    match c s with
    | Ret _ s' => calls s' = calls s ++ l
    | Panic s' => calls s' = calls s ++ l
    end.

(** The field map carried by a raw record. *)
Definition fields_of (v : rawQueryMapOutput) : list (string * value) :=
  match values v with
  | VFields fields => fields
  | _ => []
  end.

(** A raw record that the conversion loop accepts: a non-nil pointer whose
    payload is not nil when a single value is selected, and is a field map
    otherwise. *)
Definition record_ok (singleValue : bool) (v : option rawQueryMapOutput)
  : Prop :=
  match v with
  | None => False
  | Some v =>
      if singleValue then values v <> VNil
      else exists fields, values v = VFields fields
  end.

(** A raw record of the single-value case: a non-nil pointer to an output
    whose payload is not nil. *)
Definition has_payload (v : rawQueryMapOutput) : Prop := values v <> VNil.

(** The columns of a raw row. *)
Definition raw_columns (m : MapReduceJob World Expr) : list string :=
  if existsb (fun n => String.eqb n "time") (NamesInSelect (stmt m))
  then NamesInSelect (stmt m)
  else "time" :: NamesInSelect (stmt m).

(** A computation that does not touch the channel. *)
Definition quiet {A} (c : M World A) : Prop :=
  forall s, match c s with
            | Ret _ s' => out s' = out s
            | Panic s' => out s' = out s
            end.

(** Every bucket of [after] is the bucket of [before] at the same index
    followed by [n] values. *)
Definition extended (n : nat) (before after : list (list value)) : Prop :=
  Forall2 (fun b r => exists vs, r = b ++ vs /\ List.length vs = n) before after.

(** The job as [Execute] leaves it. *)
Definition job_after (m : MapReduceJob World Expr)
  : MapReduceJob World Expr :=
  if single_bucket m then set_interval m (sub64 (TMax m) (TMin m)) else m.




End Observations.

Ltac int64_lia :=
  cbv [in_int64 MinInt64 MaxInt64] in *;
  change (2 ^ 63) with 9223372036854775808 in *;
  lia.

(** ** Concrete jobs used by the examples

    The world is the list of partial results the storage still has to
    hand out. *)
Module Examples.

Definition registry (c : option Call.t) : ReduceFunc * option error :=
  match c with
  | None => (Some (fun outs => match outs with x :: _ => x | [] => VNil end), None)
  | Some c =>
      if String.eqb (Call.Name c) "sum"
      then (Some (fun outs => match outs with x :: _ => x | [] => VNil end), None)
      else (None, Some ("unknown aggregate"))
  end.

(** A mapper that hands out the next stored partial result. *)
Definition replay (id : nat) : Mapper (list value) :=
  {| mid := id;
     mOpen := fun w => (None, w);
     mClose := fun w => w;
     mBegin := fun _ _ w => (None, w);
     mNextInterval := fun _ w =>
       match w with
       | [] => ((VNil, None), [])
       | x :: w' => ((x, None), w')
       end |}.

(** A mapper whose [NextInterval] fails. *)
Definition broken (id : nat) : Mapper (list value) :=
  {| mid := id;
     mOpen := fun w => (None, w);
     mClose := fun w => w;
     mBegin := fun _ _ w => (None, w);
     mNextInterval := fun _ w => ((VNil, Some "shard unavailable"), w) |}.

(** A mapper that cannot be opened. *)
Definition unopenable (id : nat) : Mapper (list value) :=
  {| mid := id;
     mOpen := fun w => (Some "open failed", w);
     mClose := fun w => w;
     mBegin := fun _ _ w => (None, w);
     mNextInterval := fun _ w => ((VNil, None), w) |}.

Definition sum_call : Call.t := {| Call.Name := "sum"; Call.Args := ["value"] |}.
Definition bogus_call : Call.t := {| Call.Name := "bogus"; Call.Args := [] |}.

Definition stmt_of (calls : list Call.t) (names : list string) (i : Z)
  : SelectStatement unit :=
  {| Condition := tt; AggregateCalls := calls; NamesInSelect := names;
     Dimensions_Normalize := ((i, []), None) |}.

Definition tagset (k : string) : TagSet.t :=
  {| TagSet.Tags := [("host", k)]; TagSet.Filters := [];
     TagSet.SeriesIDs := []; TagSet.Key := bytes_of_string k |}.

Definition job (k : string) (ms : list (Mapper (list value)))
  (tmin tmax i : Z) (st : SelectStatement unit) : MapReduceJob (list value) unit :=
  {| MeasurementName := "m"; TagSet := tagset k; Mappers := ms;
     TMin := tmin; TMax := tmax; key := None; interval := i; stmt := st |}.

Definition start (w : list value) : St (list value) :=
  {| world := w; calls := []; out := [] |}.

Definition sum_stmt : SelectStatement unit := stmt_of [sum_call] ["sum"] 10.

(** TMin = 10, TMax = 29, interval = 10: two buckets. *)
Definition two_buckets := job "a" [replay 0] 10 29 10 sum_stmt.

(** The same job over a mapper whose [NextInterval] fails. *)
Definition failing_job := job "b" [broken 0] 10 29 10 sum_stmt.

(** A job whose aggregate call the registry does not know. *)
Definition bogus_job :=
  job "a" [replay 0] 10 29 10 (stmt_of [bogus_call] ["bogus"] 10).

(** A job whose second mapper cannot be opened. *)
Definition half_open_job :=
  job "a" [replay 0; unopenable 1; replay 2] 10 29 10 sum_stmt.

(** A job whose start time is the largest [int64] and whose end time is
    next to the smallest. *)
Definition wrapping_job :=
  job "a" [replay 0] MaxInt64 (MinInt64 + 1) 1 sum_stmt.

(** A raw query selecting the single field [v]. *)
Definition raw_job := job "a" [replay 0] 0 100 0 (stmt_of [] ["v"] 0).

Definition raw_records : list rawQueryMapOutput :=
  [RawOutput 5 (VString "a"); RawOutput 9 (VString "b")].

(** Two raw records, the second without a payload. *)
Definition nil_payload_records : list (option rawQueryMapOutput) :=
  [Some (RawOutput 5 (VString "a")); Some (RawOutput 9 VNil)].


(** A non-nil raw record that carries a payload. *)
Definition keep_record (v : option rawQueryMapOutput) : bool :=
  match v with
  | Some (RawOutput _ VNil) => false
  | Some _ => true
  | None => false
  end.

(** A raw reducer: the records of the mappers' outputs, in order, leaving
    out what is not a record with a payload. *)
Definition gather (mapperOutputs : list value) : value :=
  VRaw (filter keep_record
          (List.concat (map (fun o => match o with
                                      | VRaw l => l
                                      | _ => []
                                      end) mapperOutputs))).

(** The registry with [gather] as the reducer of raw queries. *)
Definition raw_registry (c : option Call.t) : ReduceFunc * option error :=
  match c with
  | None => (Some gather, None)
  | Some _ => registry c
  end.

(** A transaction that returns the job of tag set "b" before the job
    of tag set "a". *)
Definition unsorted_tx : Tx (list value) unit :=
  {| CreateMapReduceJobs := fun st _ w =>
       (inl [job "b" [replay 0] 0 100 0 st; job "a" [replay 1] 0 100 0 st], w) |}.

Definition unsorted_planner : Planner (list value) unit :=
  {| pDB := {| Begin := fun w => (inl unsorted_tx, w) |};
     Now := fun _ => time_Unix 0 0 |}.

Definition keep_condition (now : Time) (c : unit) : unit := c.

(** An executor whose first job sends an error row. *)
Definition mixed_executor : Executor (list value) unit :=
  {| tx := unsorted_tx; Executor_stmt := sum_stmt;
     jobs := [failing_job; two_buckets]; Executor_interval := 10 |}.

(** A mapper whose [Begin] fails. *)
Definition unbeginnable (id : nat) : Mapper (list value) :=
  {| mid := id;
     mOpen := fun w => (None, w);
     mClose := fun w => w;
     mBegin := fun _ _ w => (Some "begin failed", w);
     mNextInterval := fun _ w => ((VNil, None), w) |}.

Definition begin_failing_job :=
  job "a" [replay 0; unbeginnable 1; replay 2] 10 29 10 sum_stmt.

(** The whole range in one bucket: no start time. *)
Definition whole_range_job := job "a" [replay 0; replay 1] 0 100 0 sum_stmt.

(** An executor whose second job cannot open its second mapper. *)
Definition half_open_executor : Executor (list value) unit :=
  {| tx := unsorted_tx; Executor_stmt := sum_stmt;
     jobs := [two_buckets; half_open_job]; Executor_interval := 10 |}.

(** A raw query selecting the fields [x] and [y] with the time. *)
Definition fields_job :=
  job "a" [replay 0] 0 100 0 (stmt_of [] ["time"; "x"; "y"] 0).

Definition field_records : list rawQueryMapOutput :=
  [RawOutput 1 (VFields [("x", VInt 10); ("y", VInt 20)]);
   RawOutput 2 (VFields [("x", VInt 11)])].

Definition row_of_tags (tags : list (string * string)) : Row.t :=
  {| Row.Name := "m"; Row.Tags := tags; Row.Columns := ["time"];
     Row.Values := []; Row.Err := None |}.

(** Two mappers over the same storage. *)
Definition two_mapper_job :=
  job "a" [replay 0; replay 1] 10 29 10 sum_stmt.

(** A reducer that tells the order of its two inputs. *)
Definition digits (outs : list value) : value :=
  match outs with
  | [VInt a; VInt b] => VInt (10 * a + b)
  | _ => VNil
  end.

(** The rows sent by a run. *)
Definition sent_rows (o : Outcome (list value) (MapReduceJob (list value) unit))
: list Row.t :=
match o with
| Ret _ s => emitted_rows (out s)
| Panic s => emitted_rows (out s)
end.

End Examples.

(** ** Properties *)

Section Properties.

Context {World Expr : Type}.
Variable InitializeReduceFunc : option Call.t -> ReduceFunc * option error.
Variable Reduce_now : Time -> Expr -> Expr.

Local Abbreviation Job := (MapReduceJob World Expr).
Local Abbreviation Execute := (MapReduceJob_Execute InitializeReduceFunc).

(** *** The monad *)

Lemma bind_Ret_inv A B (c : M World A) (k : A -> M World B) s b s' :
  bind c k s = Ret b s' ->
  exists a s1, c s = Ret a s1 /\ k a s1 = Ret b s'.
Proof.
  unfold bind. destruct (c s) as [a s1|s1]; intros H; [eauto | discriminate].
Qed.

Lemma bind_Panic_inv A B (c : M World A) (k : A -> M World B) s s' :
  bind c k s = Panic s' ->
  c s = Panic s' \/ exists a s1, c s = Ret a s1 /\ k a s1 = Panic s'.
Proof.
  unfold bind. destruct (c s) as [a s1|s1]; intros H; [eauto | left; congruence].
Qed.

(** *** Job.Open and Job.Close *)

Lemma Close_loop_run (l : list (Mapper World)) s :
  Close_loop l s =
  Ret tt {| world := closed l (world s);
            calls := calls s ++ map CloseCall (map (@mid World) l);
            out := out s |}.
Proof.
  revert s. induction l as [|mm rest IH]; intros s; simpl.
  - unfold ret. rewrite app_nil_r. destruct s; reflexivity.
  - unfold bind, call_Close. rewrite IH. simpl.
    rewrite <- app_assoc. reflexivity.
Qed.

Lemma Open_loop_ok (m : Job) l s w' :
  opened l (world s) = Some w' ->
  Open_loop m l s =
  Ret None {| world := w';
              calls := calls s ++ map OpenCall (map (@mid World) l);
              out := out s |}.
Proof.
  revert s. induction l as [|mm rest IH]; intros s Hop; simpl in *.
  - injection Hop as <-. unfold ret. rewrite app_nil_r. destruct s; reflexivity.
  - unfold bind, call_Open.
    destruct (mOpen mm (world s)) as [[e|] w1] eqn:Hmm; [discriminate|].
    rewrite (IH (log_call (OpenCall (mid mm)) w1 s) Hop). simpl.
    rewrite <- app_assoc. reflexivity.
Qed.

Lemma Open_loop_fail (m : Job) pre mm post s w1 w2 err :
  opened pre (world s) = Some w1 ->
  mOpen mm w1 = (Some err, w2) ->
  Open_loop m (pre ++ mm :: post) s =
  Ret (Some err)
      {| world := closed (Mappers m) w2;
         calls := calls s ++ map OpenCall (map (@mid World) (pre ++ [mm]))
                          ++ map CloseCall (map (@mid World) (Mappers m));
         out := out s |}.
Proof.
  revert s. induction pre as [|p pre IH]; intros s Hop Hmm; simpl in *.
  - injection Hop as <-. unfold bind at 1. unfold call_Open. rewrite Hmm.
    unfold bind, MapReduceJob_Close. rewrite Close_loop_run. simpl.
    unfold ret. rewrite <- app_assoc. reflexivity.
  - unfold bind at 1. unfold call_Open.
    destruct (mOpen p (world s)) as [[e|] w0] eqn:Hp; [discriminate|].
    rewrite (IH (log_call (OpenCall (mid p)) w0 s) Hop Hmm). simpl.
    rewrite <- app_assoc. reflexivity.
Qed.

(** C10. When the [Open] of a mapper fails (those before it having
    opened), [Job.Open] has called [Open] on the mappers up to that one,
    then [Close] on every mapper of the job, and returns that mapper's
    error; when every mapper opens, it returns nil and the only calls are
    the [Open]s. *)
Theorem Open_closes_every_mapper_on_failure (m : Job) (s : St World) :
  (forall pre mm post w1 w2 err,
      Mappers m = pre ++ mm :: post ->
      opened pre (world s) = Some w1 ->
      mOpen mm w1 = (Some err, w2) ->
      MapReduceJob_Open m s =
      Ret (Some err)
          {| world := closed (Mappers m) w2;
             calls := calls s ++ map OpenCall (map (@mid World) (pre ++ [mm]))
                              ++ map CloseCall (map (@mid World) (Mappers m));
             out := out s |})
  /\
  (forall w',
      opened (Mappers m) (world s) = Some w' ->
      MapReduceJob_Open m s =
      Ret None
          {| world := w';
             calls := calls s ++ map OpenCall (map (@mid World) (Mappers m));
             out := out s |}).
Proof.
  split.
  - intros pre mm post w1 w2 err Hm Hop Hmm.
    unfold MapReduceJob_Open. rewrite Hm at 1.
    apply Open_loop_fail with (w1 := w1); assumption.
  - intros w' Hop. unfold MapReduceJob_Open. apply Open_loop_ok; assumption.
Qed.

(** *** Reducer initialisation *)

Lemma init_reduceFuncs_fail pre c post e :
  Forall (fun c' => snd (InitializeReduceFunc (Some c')) = None) pre ->
  snd (InitializeReduceFunc (Some c)) = Some e ->
  snd (init_reduceFuncs InitializeReduceFunc (pre ++ c :: post)) = Some e.
Proof.
  intros Hpre Hc. induction Hpre as [|c' pre Hc' _ IH]; simpl.
  - destruct (InitializeReduceFunc (Some c)) as [f err]. simpl in Hc.
    subst err. reflexivity.
  - destruct (InitializeReduceFunc (Some c')) as [f err]. simpl in Hc'.
    subst err.
    destruct (init_reduceFuncs InitializeReduceFunc (pre ++ c :: post)).
    simpl in *. assumption.
Qed.

Lemma init_reduceFuncs_length l fs :
  init_reduceFuncs InitializeReduceFunc l = (fs, None) ->
  List.length fs = List.length l.
Proof.
  revert fs. induction l as [|c rest IH]; intros fs H; simpl in H.
  - injection H as <-. reflexivity.
  - destruct (InitializeReduceFunc (Some c)) as [f [e|]]; [discriminate|].
    destruct (init_reduceFuncs InitializeReduceFunc rest) as [fs' err'].
    injection H as <- ->. simpl. f_equal. apply IH. reflexivity.
Qed.

(** C2 (what the code does). When the registry fails for an aggregate
    call (the calls before it being accepted), [Execute] sends one row
    holding that error and nothing else: its [Name] is empty and it has no
    [Tags], whatever the job's measurement name and tag set.  No mapper is
    called and the job is unchanged. *)
Theorem Execute_reducer_failure_row (m : Job) (s : St World) pre c post e :
  AggregateCalls (stmt m) = pre ++ c :: post ->
  Forall (fun c' => snd (InitializeReduceFunc (Some c')) = None) pre ->
  snd (InitializeReduceFunc (Some c)) = Some e ->
  Execute m s =
  Ret m {| world := world s;
           calls := calls s;
           out := out s ++ [Send {| Row.Name := ""; Row.Tags := [];
                                    Row.Columns := []; Row.Values := [];
                                    Row.Err := Some e |}] |}.
Proof.
  intros Hagg Hpre Hc. unfold MapReduceJob_Execute. rewrite Hagg.
  pose proof (init_reduceFuncs_fail pre c post e Hpre Hc) as Hinit.
  destruct (init_reduceFuncs InitializeReduceFunc (pre ++ c :: post))
    as [fs err].
  simpl in Hinit. subst err. reflexivity.
Qed.

(** *** processRawResults *)

Lemma processRawResults_Columns (m : Job) rv row :
  processRawResults m rv = Some row -> Row.Columns row = raw_columns m.
Proof.
  unfold processRawResults, raw_columns. destruct rv as [|first rest].
  - discriminate.
  - destruct (negb (Nat.eqb (List.length first) 2)).
    + intros H. injection H as <-. reflexivity.
    + destruct (nth 1 first VNil); try discriminate.
      match goal with
      | |- context [raw_rows ?a ?b ?c ?d] => destruct (raw_rows a b c d)
      end; [|discriminate].
      intros H. injection H as <-. reflexivity.
Qed.

(** C4 (what the code does). With no results at all the function does not
    return: the guard [len(resultValues) == 0] is taken and the argument
    [len(resultValues[0])] of the trace call is evaluated, an index out of
    range.  With a first bucket that has not exactly two entries it
    returns the row with the name, the tags and the derived columns, no
    values and no error. *)
Theorem processRawResults_no_results (m : Job) :
  processRawResults m [] = None
  /\
  (forall first rest,
      List.length first <> 2%nat ->
      processRawResults m (first :: rest) =
      Some {| Row.Name := MeasurementName m;
              Row.Tags := TagSet.Tags (TagSet m);
              Row.Columns := raw_columns m;
              Row.Values := [];
              Row.Err := None |}).
Proof.
  split; [reflexivity|].
  intros first rest Hlen. unfold processRawResults, raw_columns.
  apply Nat.eqb_neq in Hlen. rewrite Hlen. reflexivity.
Qed.

Lemma raw_rows_single names recs acc :
  Forall has_payload recs ->
  raw_rows names true (map (@Some rawQueryMapOutput) recs) acc =
  Some (acc ++ map (fun v => [VTime (utc (timestamp v)); values v]) recs).
Proof.
  intros H. revert acc. induction H as [|v recs Hv _ IH]; intros acc; simpl.
  - rewrite app_nil_r. reflexivity.
  - unfold has_payload in Hv.
    destruct (values v) eqn:Hval; try congruence;
      rewrite IH, <- app_assoc; reflexivity.
Qed.

(** C9 (amended). When the selected names do not contain "time", every
    row returned by [processRawResults] has the columns "time" followed by
    the selected names.  When that makes two columns and the first bucket
    is [[t, records]], every record being a non-nil pointer whose payload
    is not nil, the function returns the row whose value rows are
    [[utc(timestamp), payload]], one per record and in the order of the
    records. *)
Theorem processRawResults_single_value (m : Job) :
  existsb (fun n => String.eqb n "time") (NamesInSelect (stmt m)) = false ->
  (forall rv row,
      processRawResults m rv = Some row ->
      Row.Columns row = "time" :: NamesInSelect (stmt m))
  /\
  (forall t recs rest,
      List.length ("time" :: NamesInSelect (stmt m)) = 2%nat ->
      Forall has_payload recs ->
      processRawResults m ([t; VRaw (map (@Some rawQueryMapOutput) recs)] :: rest) =
      Some {| Row.Name := MeasurementName m;
              Row.Tags := TagSet.Tags (TagSet m);
              Row.Columns := "time" :: NamesInSelect (stmt m);
              Row.Values :=
                map (fun v => [VTime (utc (timestamp v)); values v]) recs;
              Row.Err := None |}).
Proof.
  intros Htime. split.
  - intros rv row H. apply processRawResults_Columns in H.
    unfold raw_columns in H. rewrite Htime in H. exact H.
  - intros t recs rest Hlen Hrecs. unfold processRawResults.
    rewrite Htime. cbv zeta.
    replace (Nat.eqb (List.length ("time" :: NamesInSelect (stmt m))) 2)
      with true by (symmetry; apply Nat.eqb_eq; exact Hlen).
    cbn [List.length Nat.eqb negb nth].
    rewrite (raw_rows_single _ _ [] Hrecs). reflexivity.
Qed.

(** *** Computations that do not touch the channel *)

Lemma quiet_ret A (a : A) : quiet (World:=World) (ret a).
Proof. intros s. reflexivity. Qed.

Lemma quiet_panic A : quiet (@panic World A).
Proof. intros s. reflexivity. Qed.

Lemma quiet_bind A B (c : M World A) (k : A -> M World B) :
  quiet c -> (forall a, quiet (k a)) -> quiet (bind c k).
Proof.
  intros Hc Hk s. unfold bind. specialize (Hc s).
  destruct (c s) as [a s1|s1]; [|assumption].
  specialize (Hk a s1). destruct (k a s1); congruence.
Qed.

Lemma quiet_call_Close (mm : Mapper World) : quiet (call_Close mm).
Proof. intros s. reflexivity. Qed.

Lemma quiet_call_Begin (mm : Mapper World) c t : quiet (call_Begin mm c t).
Proof.
  intros s. unfold call_Begin. destruct (mBegin mm c t (world s)). reflexivity.
Qed.

Lemma quiet_call_NextInterval (mm : Mapper World) i : quiet (call_NextInterval mm i).
Proof.
  intros s. unfold call_NextInterval.
  destruct (mNextInterval mm i (world s)). reflexivity.
Qed.

Create HintDb quiet.
#[local] Hint Resolve quiet_ret quiet_panic quiet_call_Close quiet_call_Begin
  quiet_call_NextInterval : quiet.

Lemma quiet_Begin_loop (m : Job) c l : quiet (Begin_loop m c l).
Proof.
  induction l as [|mm rest IH]; simpl; auto with quiet.
  apply quiet_bind; auto with quiet. intros [e|]; auto with quiet.
Qed.

Lemma quiet_NextInterval_loop (m : Job) l j mo : quiet (NextInterval_loop m l j mo).
Proof.
  revert j mo. induction l as [|mm rest IH]; intros j mo; simpl; auto with quiet.
  apply quiet_bind; auto with quiet. intros [v [e|]]; simpl; auto with quiet.
Qed.

Lemma quiet_bucket_loop (m : Job) f todo mo : quiet (bucket_loop m f todo mo).
Proof.
  revert mo. induction todo as [|b rest IH]; intros mo; simpl; auto with quiet.
  apply quiet_bind; [apply quiet_NextInterval_loop|].
  intros [outs [e|]]; simpl; auto with quiet.
  destruct f as [f|]; auto with quiet.
  apply quiet_bind; auto with quiet.
Qed.

Lemma quiet_processAggregate (m : Job) c f rv : quiet (processAggregate m c f rv).
Proof.
  unfold processAggregate. apply quiet_bind; [apply quiet_Begin_loop|].
  intros [e|]; auto with quiet. apply quiet_bucket_loop.
Qed.

Lemma quiet_aggregate_loop (m : Job) aggs fs rv : quiet (aggregate_loop m aggs fs rv).
Proof.
  revert fs rv. induction aggs as [|c rest IH]; intros fs rv; simpl;
    auto with quiet.
  destruct fs as [|f fs]; auto with quiet.
  apply quiet_bind; [apply quiet_processAggregate|].
  intros [rv' [e|]]; simpl; auto with quiet.
Qed.

(** *** The shape of the buckets after the aggregate passes *)

Lemma extended_refl rv : extended 0 rv rv.
Proof.
  induction rv as [|b rest IH]; constructor; auto.
  exists []. rewrite app_nil_r. auto.
Qed.

Lemma extended_trans n k a b c :
  extended n a b -> extended k b c -> extended (n + k) a c.
Proof.
  intros Hab. revert c. induction Hab as [|x y a b [vs [-> Hvs]] _ IH];
    intros c Hbc; inversion Hbc as [|y' z b' c' [ws [-> Hws]] Hrest]; subst.
  - constructor.
  - constructor; [|apply IH; assumption].
    exists (vs ++ ws). rewrite app_assoc, length_app. auto.
Qed.

Lemma extended_nth n before after i r :
  extended n before after ->
  nth_error after i = Some r ->
  exists b vs, nth_error before i = Some b /\ r = b ++ vs /\ List.length vs = n.
Proof.
  intros H. revert i. induction H as [|x y a b [vs [-> Hvs]] _ IH];
    intros [|i] Hi; simpl in *; try discriminate.
  - injection Hi as <-. eauto.
  - apply IH. assumption.
Qed.

Lemma bucket_loop_extended (m : Job) f todo mo s rv s' :
  bucket_loop m f todo mo s = Ret (rv, None) s' -> extended 1 todo rv.
Proof.
  revert mo s rv s'. induction todo as [|b rest IH]; intros mo s rv s' H;
    simpl in H.
  - injection H as <- <-. constructor.
  - apply bind_Ret_inv in H. destruct H as [[outs err] [s1 [_ H]]].
    simpl in H. destruct err as [e|]; [discriminate|].
    destruct f as [f|]; [|discriminate].
    apply bind_Ret_inv in H. destruct H as [[rv' err'] [s2 [Hrest H]]].
    simpl in H. injection H as <- -> <-.
    constructor; [|eapply IH; eassumption].
    eexists. split; reflexivity.
Qed.

Lemma processAggregate_extended (m : Job) c f rv0 s rv s' :
  processAggregate m c f rv0 s = Ret (rv, None) s' -> extended 1 rv0 rv.
Proof.
  unfold processAggregate. intros H.
  apply bind_Ret_inv in H. destruct H as [[e|] [s1 [_ H]]]; [discriminate|].
  eapply bucket_loop_extended; eassumption.
Qed.

Lemma aggregate_loop_extended (m : Job) aggs fs rv0 s rv s' :
  aggregate_loop m aggs fs rv0 s = Ret (rv, None) s' ->
  extended (List.length aggs) rv0 rv.
Proof.
  revert fs rv0 s. induction aggs as [|c rest IH]; intros fs rv0 s H;
    simpl in H.
  - injection H as <- <-. apply extended_refl.
  - destruct fs as [|f fs]; [discriminate|].
    apply bind_Ret_inv in H. destruct H as [[rv1 err] [s1 [Hp H]]].
    simpl in H. destruct err as [e|]; [discriminate|].
    apply processAggregate_extended in Hp. apply IH in H.
    exact (extended_trans 1 _ _ _ _ Hp H).
Qed.

Lemma initial_resultValues_nth (m : Job) count i b :
  nth_error (initial_resultValues m count) i = Some b ->
  (i < count)%nat /\
  b = [VTime (utc (add64 (TMin m) (mul64 (Z.of_nat i) (interval m))))].
Proof.
  unfold initial_resultValues. intros H.
  assert (Hi : (i < count)%nat).
  { assert (Hn : nth_error (map (fun i : nat =>
         [VTime (utc (add64 (TMin m) (mul64 (Z.of_nat i) (interval m))))])
         (seq 0 count)) i <> None) by congruence.
    apply nth_error_Some in Hn. rewrite length_map, length_seq in Hn. exact Hn. }
  split; [exact Hi|].
  rewrite nth_error_map, nth_error_seq in H.
  apply Nat.ltb_lt in Hi. rewrite Hi in H. simpl in H. congruence.
Qed.

Lemma initial_resultValues_length (m : Job) count :
  List.length (initial_resultValues m count) = count.
Proof. unfold initial_resultValues. rewrite length_map, length_seq. reflexivity. Qed.

(** *** Execute *)

Lemma interval_job_after (m : Job) : interval (job_after m) = effective_interval m.
Proof.
  unfold job_after, effective_interval. destruct (single_bucket m); reflexivity.
Qed.

Lemma TMin_job_after (m : Job) : TMin (job_after m) = TMin m.
Proof. unfold job_after. destruct (single_bucket m); reflexivity. Qed.

Lemma send_inj (l : list (ChanEvent)) r r' :
  l ++ [Send r] = l ++ [Send r'] -> r = r'.
Proof. intros H. apply app_inv_head in H. congruence. Qed.

(** Whatever happens, a call of [Execute] that returns has sent one row,
    and a call that panics has sent none. *)
Lemma Execute_outcome (m : Job) (s : St World) :
  match Execute m s with
  | Ret _ s' => exists r, out s' = out s ++ [Send r]
  | Panic s' => out s' = out s
  end.
Proof.
  unfold MapReduceJob_Execute.
  destruct (init_reduceFuncs InitializeReduceFunc (AggregateCalls (stmt m)))
    as [fs [e|]].
  - simpl. eauto.
  - destruct (pointCountInResult m <? 0); [reflexivity|].
    unfold bind at 1.
    match goal with
    | |- context [aggregate_loop ?a ?b ?c ?d s] =>
        pose proof (quiet_aggregate_loop a b c d s) as Hq;
        destruct (aggregate_loop a b c d s) as [[rv err] s1|s1]
    end; [|assumption].
    cbn [snd fst]. destruct err as [e|].
    + simpl. rewrite Hq. eauto.
    + destruct (Nat.eqb (List.length (AggregateCalls (stmt m))) 0).
      * match goal with
        | |- context [processRawResults ?a ?b] =>
            destruct (processRawResults a b); [|assumption]
        end.
        simpl. rewrite Hq. eauto.
      * simpl. rewrite Hq. eauto.
Qed.

(** A non-raw job that sent a row without error: the row and the buckets
    it was built from. *)
Lemma Execute_aggregate_success (m m' : Job) (s s' : St World) r :
  AggregateCalls (stmt m) <> [] ->
  Execute m s = Ret m' s' ->
  out s' = out s ++ [Send r] ->
  Row.Err r = None ->
  0 <= pointCountInResult m /\
  m' = job_after m /\
  Row.Name r = MeasurementName m /\
  Row.Tags r = TagSet.Tags (TagSet m) /\
  Row.Columns r = "time" :: map Call.Name (AggregateCalls (stmt m)) /\
  extended (List.length (AggregateCalls (stmt m)))
    (initial_resultValues (job_after m) (Z.to_nat (pointCountInResult m)))
    (Row.Values r).
Proof.
  intros Hagg Hex Hout Herr. unfold MapReduceJob_Execute in Hex.
  fold (job_after m) in Hex.
  destruct (init_reduceFuncs InitializeReduceFunc (AggregateCalls (stmt m)))
    as [fs [e|]].
  - simpl in Hex. injection Hex as <- <-. simpl in Hout.
    apply send_inj in Hout. subst r. discriminate.
  - assert (Hraw : Nat.eqb (List.length (AggregateCalls (stmt m))) 0 = false).
    { destruct (AggregateCalls (stmt m)); [congruence|reflexivity]. }
    rewrite Hraw in Hex.
    destruct (pointCountInResult m <? 0) eqn:Hneg; [discriminate|].
    apply Z.ltb_ge in Hneg.
    apply bind_Ret_inv in Hex. destruct Hex as [[rv err] [s1 [Hloop Hex]]].
    match type of Hloop with
    | aggregate_loop ?a ?b ?c ?d s = _ =>
        pose proof (quiet_aggregate_loop a b c d s) as Hq
    end.
    rewrite Hloop in Hq. cbn [snd fst] in Hex. destruct err as [e|].
    + unfold bind, send, ret in Hex. injection Hex as <- <-. simpl in Hout.
      rewrite Hq in Hout. apply send_inj in Hout. subst r. discriminate.
    + unfold bind, send, ret in Hex. injection Hex as <- <-. simpl in Hout.
      rewrite Hq in Hout. apply send_inj in Hout. subst r. simpl.
      apply aggregate_loop_extended in Hloop. rewrite length_map in Hloop.
      repeat split; try assumption;
        unfold job_after; destruct (single_bucket m); reflexivity.
Qed.

(** C5. A non-raw job that completes without error sends a row whose
    columns are "time" followed by the names of the aggregate calls in
    order, and every value row has as many entries as there are
    columns. *)
Theorem Execute_columns (m m' : Job) (s s' : St World) r :
  AggregateCalls (stmt m) <> [] ->
  Execute m s = Ret m' s' ->
  out s' = out s ++ [Send r] ->
  Row.Err r = None ->
  List.length (Row.Columns r) = (1 + List.length (AggregateCalls (stmt m)))%nat /\
  nth_error (Row.Columns r) 0 = Some "time" /\
  (forall i c, nth_error (AggregateCalls (stmt m)) i = Some c ->
               nth_error (Row.Columns r) (i + 1) = Some (Call.Name c)) /\
  (forall vals, In vals (Row.Values r) ->
                List.length vals = List.length (Row.Columns r)).
Proof.
  intros Hagg Hex Hout Herr.
  destruct (Execute_aggregate_success m m' s s' r Hagg Hex Hout Herr)
    as (_ & _ & _ & _ & Hcols & Hvals).
  rewrite Hcols. simpl. rewrite length_map. repeat split.
  - intros i c Hi. rewrite Nat.add_1_r. simpl.
    rewrite nth_error_map, Hi. reflexivity.
  - intros vals Hin. apply In_nth_error in Hin. destruct Hin as [i Hi].
    destruct (extended_nth _ _ _ _ _ Hvals Hi) as (b & vs & Hb & -> & Hvs).
    apply initial_resultValues_nth in Hb. destruct Hb as [_ ->].
    simpl. rewrite Hvs. reflexivity.
Qed.

(** *** Computations that cannot panic *)











(** *** int64 arithmetic without overflow *)

Lemma int64_bounds :
  MinInt64 = -9223372036854775808 /\ MaxInt64 = 9223372036854775807.
Proof. split; reflexivity. Qed.

Lemma two_64 : 2 ^ 64 = 18446744073709551616.
Proof. reflexivity. Qed.

Lemma two_63 : 2 ^ 63 = 9223372036854775808.
Proof. reflexivity. Qed.

Lemma wrap64_id z : in_int64 z -> wrap64 z = z.
Proof.
  intros H. unfold wrap64. rewrite Z.mod_small.
  - lia.
  - rewrite two_63, two_64. int64_lia.
Qed.

Lemma wrap64_range z : in_int64 (wrap64 z).
Proof.
  unfold wrap64.
  pose proof (Z.mod_pos_bound (z + 2 ^ 63) (2 ^ 64)) as H.
  rewrite two_63, two_64 in *. int64_lia.
Qed.

(** [wrap64 z] differs from [z] by a multiple of [2^64]. *)
Lemma wrap64_cases z :
  exists k, wrap64 z = z - k * 18446744073709551616.
Proof.
  exists ((z + 2 ^ 63) / 2 ^ 64). unfold wrap64.
  rewrite Z.mod_eq by (rewrite two_64; lia).
  rewrite two_63, two_64. lia.
Qed.

Lemma wrap64_add_l a b : wrap64 (wrap64 a + b) = wrap64 (a + b).
Proof.
  unfold wrap64. f_equal.
  replace ((a + 2 ^ 63) mod 2 ^ 64 - 2 ^ 63 + b + 2 ^ 63)
    with ((a + 2 ^ 63) mod 2 ^ 64 + b) by lia.
  rewrite Zplus_mod_idemp_l. f_equal; lia.
Qed.

Lemma wrap64_sub_l a b : wrap64 (wrap64 a - b) = wrap64 (a - b).
Proof.
  replace (wrap64 a - b) with (wrap64 a + - b) by lia.
  rewrite wrap64_add_l. f_equal; lia.
Qed.

(** [TMax / interval * interval] for a positive interval. *)
Lemma quot_mul_bounds a b :
  in_int64 a -> 0 < b ->
  in_int64 (Z.quot a b) /\ in_int64 (Z.quot a b * b) /\
  a - b < Z.quot a b * b /\ Z.quot a b * b < a + b.
Proof.
  intros Ha Hb.
  pose proof (Z.quot_rem a b ltac:(lia)) as Hqr.
  destruct (Z_le_gt_dec 0 a) as [Hpos|Hneg].
  - pose proof (Z.rem_bound_pos_pos a b Hb Hpos) as Hr.
    pose proof (Z.mul_quot_le a b Hpos ltac:(lia)) as Hq.
    assert (0 <= Z.quot a b) by (apply Z.quot_pos; lia).
    assert (Z.quot a b <= b * Z.quot a b) by nia.
    repeat split; int64_lia.
  - pose proof (Z.rem_bound_pos_neg a b Hb ltac:(lia)) as Hr.
    pose proof (Z.mul_quot_ge a b ltac:(lia) ltac:(lia)) as Hq.
    assert (Z.quot a b <= 0).
    { apply Z.quot_le_upper_bound; lia. }
    assert (b * Z.quot a b <= Z.quot a b) by nia.
    repeat split; int64_lia.
Qed.

Lemma numerator_exact tmin tmax i :
  in_int64 tmax -> 0 < i ->
  sub64 (add64 (mul64 (quot64 tmax i) i) i) tmin =
  wrap64 (Z.quot tmax i * i + i - tmin).
Proof.
  intros Hmax Hi.
  destruct (quot_mul_bounds tmax i Hmax Hi) as (Hq & Hqi & _).
  unfold sub64, add64, mul64, quot64.
  rewrite (wrap64_id _ Hq), (wrap64_id _ Hqi).
  apply wrap64_sub_l.
Qed.

Lemma bucket_count_exact tmin tmax i :
  in_int64 tmax -> 0 < i ->
  in_int64 (Z.quot tmax i * i + i - tmin) ->
  quot64 (sub64 (add64 (mul64 (quot64 tmax i) i) i) tmin) i =
  Z.quot (Z.quot tmax i * i + i - tmin) i.
Proof.
  intros Hmax Hi Hnum. rewrite numerator_exact by assumption.
  rewrite (wrap64_id _ Hnum). unfold quot64.
  apply wrap64_id. apply (quot_mul_bounds _ i Hnum Hi).
Qed.

Lemma pointCountInResult_buckets (m : Job) :
  0 < interval m -> 0 < TMin m -> AggregateCalls (stmt m) <> [] ->
  single_bucket m = false /\
  pointCountInResult m =
  quot64 (sub64 (add64 (mul64 (quot64 (TMax m) (interval m)) (interval m))
                       (interval m))
                (TMin m))
         (interval m).
Proof.
  intros Hi Ht Hagg.
  assert (Hs : single_bucket m = false).
  { unfold single_bucket.
    destruct (AggregateCalls (stmt m)); [congruence|].
    replace (TMin m =? 0) with false by (symmetry; apply Z.eqb_neq; lia).
    replace (interval m =? 0) with false by (symmetry; apply Z.eqb_neq; lia).
    reflexivity. }
  split; [exact Hs|]. unfold pointCountInResult. rewrite Hs. reflexivity.
Qed.

Lemma extended_length n before after :
  extended n before after -> List.length after = List.length before.
Proof. intros H. symmetry. exact (Forall2_length H). Qed.

(** C1 (amended). A job with a positive interval, a positive start time
    and at least one aggregate call that completes without error sends a
    row with exactly [(intervalTop - TMin) / interval] value rows, where
    [intervalTop = TMax / interval * interval + interval], in [int64]
    arithmetic; this is the same number in the integers when the numerator
    fits in an [int64]. *)
Theorem Execute_bucket_count (m m' : Job) (s s' : St World) r :
  0 < interval m ->
  0 < TMin m ->
  AggregateCalls (stmt m) <> [] ->
  Execute m s = Ret m' s' ->
  out s' = out s ++ [Send r] ->
  Row.Err r = None ->
  Z.of_nat (List.length (Row.Values r)) =
  quot64 (sub64 (add64 (mul64 (quot64 (TMax m) (interval m)) (interval m))
                       (interval m))
                (TMin m))
         (interval m)
  /\
  (int64_job m ->
   in_int64 (Z.quot (TMax m) (interval m) * interval m + interval m - TMin m) ->
   Z.of_nat (List.length (Row.Values r)) =
   Z.quot (Z.quot (TMax m) (interval m) * interval m + interval m - TMin m)
          (interval m)).
Proof.
  intros Hi Ht Hagg Hex Hout Herr.
  destruct (Execute_aggregate_success m m' s s' r Hagg Hex Hout Herr)
    as (Hcount & _ & _ & _ & _ & Hvals).
  apply extended_length in Hvals.
  rewrite initial_resultValues_length in Hvals.
  destruct (pointCountInResult_buckets m Hi Ht Hagg) as [_ Hpc].
  assert (Hlen : Z.of_nat (List.length (Row.Values r)) = pointCountInResult m).
  { rewrite Hvals. apply Z2Nat.id. exact Hcount. }
  split.
  - rewrite Hlen. exact Hpc.
  - intros (_ & Hmax & _) Hnum. rewrite Hlen, Hpc.
    apply bucket_count_exact; assumption.
Qed.

(** *** Times *)

(** [time.Unix(0, n)] splits [n] into whole seconds and a remainder in
    [0, 1e9). *)
Lemma time_Unix_spec n :
  in_int64 n ->
  sec (time_Unix 0 n) * 1000000000 + nsec (time_Unix 0 n) = n /\
  0 <= nsec (time_Unix 0 n) < 1000000000.
Proof.
  intros Hn. unfold time_Unix.
  destruct ((n <? 0) || (1000000000 <=? n)) eqn:Hc.
  - assert (Hb : 0 < 1000000000) by lia.
    destruct (quot_mul_bounds n 1000000000 Hn Hb) as (Hq & Hqb & Hlo & Hhi).
    set (q := Z.quot n 1000000000) in *.
    assert (Hq' : quot64 n 1000000000 = q) by (apply wrap64_id; exact Hq).
    rewrite Hq'.
    assert (Hs1 : add64 0 q = q) by (apply wrap64_id; exact Hq).
    assert (Hm : mul64 q 1000000000 = q * 1000000000)
      by (apply wrap64_id; exact Hqb).
    assert (Hn1 : sub64 n (q * 1000000000) = n - q * 1000000000)
      by (apply wrap64_id; int64_lia).
    rewrite Hs1, Hm, Hn1.
    destruct (n - q * 1000000000 <? 0) eqn:Hneg.
    + apply Z.ltb_lt in Hneg. simpl.
      assert (Hs : sub64 q 1 = q - 1) by (apply wrap64_id; int64_lia).
      assert (Ha : add64 (n - q * 1000000000) 1000000000
                   = n - q * 1000000000 + 1000000000)
        by (apply wrap64_id; int64_lia).
      rewrite Hs, Ha. lia.
    + apply Z.ltb_ge in Hneg. simpl. lia.
  - apply orb_false_iff in Hc. destruct Hc as [H1 H2].
    apply Z.ltb_ge in H1. apply Z.leb_gt in H2. simpl. lia.
Qed.

Lemma utc_Before a b :
  in_int64 a -> in_int64 b -> a < b -> Before (utc a) (utc b).
Proof.
  intros Ha Hb Hab.
  destruct (time_Unix_spec a Ha) as [Ea Ra].
  destruct (time_Unix_spec b Hb) as [Eb Rb].
  unfold Before, utc, UTC. simpl. lia.
Qed.

(** In bucket mode, with a positive interval and [TMin <= TMax], the time
    of every bucket is computed without overflow. *)
Lemma bucket_time_exact (m : Job) i :
  int64_job m ->
  TMin m <= TMax m ->
  single_bucket m = false ->
  0 < interval m ->
  0 <= i < pointCountInResult m ->
  in_int64 (TMin m + i * interval m) /\
  add64 (TMin m) (mul64 i (interval m)) = TMin m + i * interval m.
Proof.
  intros (Hmin & Hmax & Hint) Hle Hs Hi Hrange.
  unfold pointCountInResult in Hrange. rewrite Hs in Hrange.
  unfold intervalTop in Hrange.
  rewrite numerator_exact in Hrange by assumption.
  destruct (quot_mul_bounds (TMax m) (interval m) Hmax Hi)
    as (_ & HT & Hlo & Hhi).
  set (T := Z.quot (TMax m) (interval m) * interval m) in *.
  set (D := T + interval m - TMin m) in *.
  pose proof (wrap64_range D) as Hd.
  destruct (wrap64_cases D) as [k Hk].
  set (d := wrap64 D) in *.
  destruct (quot_mul_bounds d (interval m) Hd Hi) as (Hc & _ & Hclo & Hchi).
  unfold quot64 in Hrange. rewrite (wrap64_id _ Hc) in Hrange.
  set (c := Z.quot d (interval m)) in *.
  assert (Hci : interval m <= c * interval m) by nia.
  assert (Hcd : c * interval m <= d).
  { unfold c. rewrite Z.mul_comm. apply Z.mul_quot_le; lia. }
  assert (HdD : d = D) by (unfold D in *; int64_lia).
  assert (Hii : 0 <= i * interval m <= (c - 1) * interval m) by nia.
  assert (Hin : in_int64 (i * interval m)) by int64_lia.
  assert (Hsum : in_int64 (TMin m + i * interval m)) by int64_lia.
  split; [exact Hsum|].
  unfold add64, mul64. rewrite (wrap64_id _ Hin). apply wrap64_id. exact Hsum.
Qed.

Lemma time_exact (m : Job) i :
  int64_job m ->
  TMin m <= TMax m ->
  0 <= interval m ->
  0 <= i < pointCountInResult m ->
  in_int64 (TMin m + i * effective_interval m) /\
  add64 (TMin m) (mul64 i (effective_interval m)) =
  TMin m + i * effective_interval m.
Proof.
  intros Hjob Hle Hi Hrange.
  destruct (single_bucket m) eqn:Hs.
  - unfold pointCountInResult in Hrange. rewrite Hs in Hrange.
    assert (i = 0) by lia. subst i.
    destruct Hjob as (Hmin & _ & _).
    rewrite Z.mul_0_l, Z.add_0_r. split; [exact Hmin|].
    unfold add64, mul64. rewrite Z.mul_0_l.
    change (wrap64 0) with 0. rewrite Z.add_0_r. apply wrap64_id. exact Hmin.
  - unfold effective_interval in *. rewrite Hs in *.
    assert (Hpos : 0 < interval m).
    { unfold single_bucket in Hs.
      apply Bool.orb_false_iff in Hs. destruct Hs as [Hs _].
      apply Bool.orb_false_iff in Hs. destruct Hs as [_ Hs].
      apply Z.eqb_neq in Hs. lia. }
    apply bucket_time_exact; assumption.
Qed.

Lemma value_row_time (m m' : Job) (s s' : St World) r i vals :
  AggregateCalls (stmt m) <> [] ->
  Execute m s = Ret m' s' ->
  out s' = out s ++ [Send r] ->
  Row.Err r = None ->
  nth_error (Row.Values r) i = Some vals ->
  0 <= Z.of_nat i < pointCountInResult m /\
  nth_error vals 0 =
  Some (VTime (utc (add64 (TMin m)
                          (mul64 (Z.of_nat i) (effective_interval m))))).
Proof.
  intros Hagg Hex Hout Herr Hi.
  destruct (Execute_aggregate_success m m' s s' r Hagg Hex Hout Herr)
    as (Hcount & _ & _ & _ & _ & Hvals).
  destruct (extended_nth _ _ _ _ _ Hvals Hi) as (b & vs & Hb & -> & _).
  apply initial_resultValues_nth in Hb. destruct Hb as [Hlt ->].
  rewrite TMin_job_after, interval_job_after. split; [lia|reflexivity].
Qed.

(** C6. In the row of a non-raw job that completes without error, value
    row [i] starts with the UTC time of [TMin + i*I], [I] being the
    effective interval, and these time entries are strictly ascending in
    [i] whenever [I > 0].  The job is one of the data model: its bounds
    and its interval are [int64] values, [TMin <= TMax], and the interval
    (a bucket width) is not negative. *)
Theorem Execute_time_entries (m m' : Job) (s s' : St World) r :
  int64_job m ->
  TMin m <= TMax m ->
  0 <= interval m ->
  AggregateCalls (stmt m) <> [] ->
  Execute m s = Ret m' s' ->
  out s' = out s ++ [Send r] ->
  Row.Err r = None ->
  (forall i vals,
      nth_error (Row.Values r) i = Some vals ->
      nth_error vals 0 =
      Some (VTime (utc (TMin m + Z.of_nat i * effective_interval m))))
  /\
  (0 < effective_interval m ->
   forall i j vi vj ti tj,
     (i < j)%nat ->
     nth_error (Row.Values r) i = Some vi ->
     nth_error (Row.Values r) j = Some vj ->
     nth_error vi 0 = Some (VTime ti) ->
     nth_error vj 0 = Some (VTime tj) ->
     Before ti tj).
Proof.
  intros Hjob Hle Hwidth Hagg Hex Hout Herr.
  assert (Hrow : forall i vals,
             nth_error (Row.Values r) i = Some vals ->
             in_int64 (TMin m + Z.of_nat i * effective_interval m) /\
             nth_error vals 0 =
             Some (VTime (utc (TMin m + Z.of_nat i * effective_interval m)))).
  { intros i vals Hi.
    destruct (value_row_time m m' s s' r i vals Hagg Hex Hout Herr Hi)
      as [Hrange ->].
    destruct (time_exact m _ Hjob Hle Hwidth Hrange) as [Hin ->].
    split; [exact Hin|reflexivity]. }
  split.
  - intros i vals Hi. apply (Hrow i vals Hi).
  - intros Hpos i j vi vj ti tj Hij Hi Hj Hti Htj.
    destruct (Hrow i vi Hi) as [Hini Hvi].
    destruct (Hrow j vj Hj) as [Hinj Hvj].
    rewrite Hvi in Hti. rewrite Hvj in Htj.
    injection Hti as <-. injection Htj as <-.
    apply utc_Before; try assumption. nia.
Qed.

(** *** The executor *)

Lemma emits_in_order_out (js : list Job) (s s' : St World) rows :
  emits_in_order InitializeReduceFunc js s rows s' ->
  out s' = out s ++ map Send rows /\ List.length rows = List.length js.
Proof.
  induction 1 as [s|j js s j' s1 r rows s' Hex Hout _ [IHout IHlen]]; simpl.
  - rewrite app_nil_r. auto.
  - rewrite IHout, Hout, <- app_assoc. simpl. auto.
Qed.

Lemma emits_in_order_app (pre post : list Job) (s s1 s2 : St World) rows1 rows2 :
  emits_in_order InitializeReduceFunc pre s rows1 s1 ->
  emits_in_order InitializeReduceFunc post s1 rows2 s2 ->
  emits_in_order InitializeReduceFunc (pre ++ post) s (rows1 ++ rows2) s2.
Proof.
  induction 1; intros Hpost; simpl; [assumption|].
  econstructor; eauto.
Qed.

Lemma run_jobs_emits (js js' : list Job) (s s' : St World) :
  run_jobs InitializeReduceFunc js s = Ret js' s' ->
  exists rows, emits_in_order InitializeReduceFunc js s rows s'.
Proof.
  revert js' s. induction js as [|j js IH]; intros js' s H; simpl in H.
  - injection H as <- <-. exists []. constructor.
  - apply bind_Ret_inv in H. destruct H as (j' & s1 & Hex & H).
    apply bind_Ret_inv in H. destruct H as (rest' & s2 & Hrest & H).
    injection H as <- <-.
    pose proof (Execute_outcome j s) as Hout. rewrite Hex in Hout.
    destruct Hout as [r Hr]. destruct (IH _ _ Hrest) as [rows Hrows].
    exists (r :: rows). econstructor; eassumption.
Qed.

Lemma emits_run_jobs (js : list Job) (s s' : St World) rows :
  emits_in_order InitializeReduceFunc js s rows s' ->
  exists js', run_jobs InitializeReduceFunc js s = Ret js' s'.
Proof.
  induction 1 as [s|j js s j' s1 r rows s' Hex Hout _ [js' IH]]; simpl.
  - unfold ret. eauto.
  - unfold bind. rewrite Hex, IH. unfold ret. eauto.
Qed.

Lemma run_jobs_Panic (js : list Job) (s s' : St World) :
  run_jobs InitializeReduceFunc js s = Panic s' ->
  exists rows, (List.length rows < List.length js)%nat /\
               out s' = out s ++ map Send rows.
Proof.
  revert s. induction js as [|j js IH]; intros s H; simpl in H.
  - discriminate.
  - pose proof (Execute_outcome j s) as Hout.
    apply bind_Panic_inv in H. destruct H as [H|(j' & s1 & Hex & H)].
    + rewrite H in Hout. exists []. simpl. rewrite app_nil_r. split; [lia|auto].
    + rewrite Hex in Hout. destruct Hout as [r Hr].
      apply bind_Panic_inv in H. destruct H as [H|(rest' & s2 & _ & H)];
        [|discriminate].
      destruct (IH _ H) as (rows & Hlen & Hrows).
      exists (r :: rows). simpl. split; [lia|].
      rewrite Hrows, Hr, <- app_assoc. reflexivity.
Qed.

Lemma close_jobs_run (js : list Job) (s : St World) :
  exists s', close_jobs js s = Ret tt s' /\ out s' = out s.
Proof.
  revert s. induction js as [|j js IH]; intros s; simpl.
  - unfold ret. eauto.
  - unfold bind, MapReduceJob_Close. rewrite Close_loop_run.
    match goal with
    | |- context [close_jobs js ?s0] => destruct (IH s0) as (s' & -> & Hout)
    end.
    exists s'. split; [reflexivity|]. rewrite Hout. reflexivity.
Qed.

Lemma Executor_execute_Ret (e : Executor World Expr) (s s' : St World) :
  Executor_execute InitializeReduceFunc e s = Ret tt s' ->
  exists rows s1,
    emits_in_order InitializeReduceFunc (jobs e) s rows s1 /\
    out s' = out s ++ map Send rows ++ [CloseChan].
Proof.
  unfold Executor_execute. intros H.
  destruct (run_jobs InitializeReduceFunc (jobs e) s) as [js s1|s1] eqn:Hrun.
  - destruct (run_jobs_emits _ _ _ _ Hrun) as [rows Hrows].
    exists rows, s1. split; [exact Hrows|].
    apply emits_in_order_out in Hrows. destruct Hrows as [Hout _].
    unfold bind, close_chan in H.
    match type of H with
    | close_jobs js ?s0 = _ => destruct (close_jobs_run js s0) as (s2 & Hc & Ho)
    end.
    rewrite Hc in H. injection H as <-. rewrite Ho. simpl.
    rewrite Hout, <- app_assoc. reflexivity.
  - unfold Executor_close in H.
    destruct (close_jobs_run (jobs e) s1) as (s2 & Hc & _).
    rewrite Hc in H. discriminate.
Qed.

Lemma Executor_execute_emits (e : Executor World Expr) (s s1 : St World) rows :
  emits_in_order InitializeReduceFunc (jobs e) s rows s1 ->
  exists s', Executor_execute InitializeReduceFunc e s = Ret tt s' /\
             out s' = out s ++ map Send rows ++ [CloseChan].
Proof.
  intros Hrows. unfold Executor_execute.
  destruct (emits_run_jobs _ _ _ _ Hrows) as [js' ->].
  apply emits_in_order_out in Hrows. destruct Hrows as [Hout _].
  unfold bind, close_chan.
  match goal with
  | |- context [close_jobs js' ?s0] =>
      destruct (close_jobs_run js' s0) as (s2 & -> & Ho)
  end.
  exists s2. split; [reflexivity|]. rewrite Ho. simpl.
  rewrite Hout, <- app_assoc. reflexivity.
Qed.

Lemma Executor_execute_Panic (e : Executor World Expr) (s s' : St World) :
  Executor_execute InitializeReduceFunc e s = Panic s' ->
  exists rows, (List.length rows < List.length (jobs e))%nat /\
               out s' = out s ++ map Send rows.
Proof.
  unfold Executor_execute. intros H.
  destruct (run_jobs InitializeReduceFunc (jobs e) s) as [js s1|s1] eqn:Hrun.
  - unfold bind, close_chan in H.
    match type of H with
    | close_jobs js ?s0 = _ => destruct (close_jobs_run js s0) as (s2 & Hc & _)
    end.
    rewrite Hc in H. discriminate.
  - destruct (run_jobs_Panic _ _ _ Hrun) as (rows & Hlen & Hout).
    unfold Executor_close in H.
    destruct (close_jobs_run (jobs e) s1) as (s2 & Hc & Ho).
    rewrite Hc in H. injection H as <-.
    exists rows. split; [exact Hlen|]. rewrite Ho. exact Hout.
Qed.

(** C8. In the emission task, a job that sends an error row does not stop
    the jobs after it: when the jobs before it have sent their rows and
    the jobs after it, run from the state it leaves, send theirs, the task
    sends all these rows in the order of the job list and then closes the
    channel.  Conversely every run of the task that ends has executed each
    job of the list in turn, one row each, whatever the [Err] of the rows,
    and closed the channel after the last row; a run that does not end (a
    job panicked) has sent fewer rows than there are jobs and has not
    closed the channel. *)
Theorem execute_continues_after_error_row (e : Executor World Expr) (s : St World) :
  (forall (pre : list Job) j post rows1 s1 j' s2 r err rows2 s3,
      jobs e = pre ++ j :: post ->
      emits_in_order InitializeReduceFunc pre s rows1 s1 ->
      Execute j s1 = Ret j' s2 ->
      out s2 = out s1 ++ [Send r] ->
      Row.Err r = Some err ->
      emits_in_order InitializeReduceFunc post s2 rows2 s3 ->
      exists s',
        Executor_execute InitializeReduceFunc e s = Ret tt s' /\
        out s' = out s ++ map Send (rows1 ++ r :: rows2) ++ [CloseChan])
  /\
  (forall s',
      Executor_execute InitializeReduceFunc e s = Ret tt s' ->
      exists rows s1,
        emits_in_order InitializeReduceFunc (jobs e) s rows s1 /\
        List.length rows = List.length (jobs e) /\
        out s' = out s ++ map Send rows ++ [CloseChan])
  /\
  (forall s',
      Executor_execute InitializeReduceFunc e s = Panic s' ->
      exists rows,
        (List.length rows < List.length (jobs e))%nat /\
        out s' = out s ++ map Send rows).
Proof.
  split; [|split; [|apply Executor_execute_Panic]].
  - intros pre j post rows1 s1 j' s2 r err rows2 s3 Hjobs Hpre Hex Hout _ Hpost.
    apply Executor_execute_emits with (s1 := s3). rewrite Hjobs.
    apply emits_in_order_app with (s1 := s1); [exact Hpre|].
    econstructor; eassumption.
  - intros s' H. destruct (Executor_execute_Ret e s s' H) as (rows & s1 & Hrows & Hout).
    exists rows, s1. repeat split; try assumption.
    apply (emits_in_order_out _ _ _ _ Hrows).
Qed.

(** *** The planner *)

Lemma quiet_Close_loop (l : list (Mapper World)) : quiet (Close_loop l).
Proof. intros s. rewrite Close_loop_run. reflexivity. Qed.

Lemma quiet_Open_loop (m : Job) l : quiet (Open_loop m l).
Proof.
  induction l as [|mm rest IH]; simpl; auto with quiet.
  apply quiet_bind.
  - intros s. unfold call_Open. destruct (mOpen mm (world s)). reflexivity.
  - intros [e|]; [|assumption].
    apply quiet_bind; [apply quiet_Close_loop|auto with quiet].
Qed.

Lemma quiet_close_jobs (js : list Job) : quiet (close_jobs js).
Proof.
  intros s. destruct (close_jobs_run js s) as (s' & -> & H). exact H.
Qed.

Lemma quiet_open_jobs (e : Executor World Expr) (l : list Job) :
  quiet (open_jobs e l).
Proof.
  induction l as [|j rest IH]; simpl; auto with quiet.
  apply quiet_bind; [apply quiet_Open_loop|].
  intros [er|]; [|assumption].
  apply quiet_bind; [apply quiet_close_jobs|auto with quiet].
Qed.

Lemma keys_ascending_imprint (js : list Job) (f : Job -> Job) :
  (forall j, TagSet (f j) = TagSet j) ->
  keys_ascending (map f js) <-> keys_ascending js.
Proof.
  intros Hf. unfold keys_ascending. induction js as [|j js IH]; simpl.
  - split; constructor.
  - split; intros H; inversion H as [|a l Hs Hall]; subst; constructor.
    + apply IH. assumption.
    + rewrite Forall_map in Hall. rewrite Hf in Hall.
      eapply Forall_impl; [|exact Hall]. simpl. intros a Ha.
      rewrite Hf in Ha. exact Ha.
    + apply IH. assumption.
    + rewrite Forall_map. rewrite Hf.
      eapply Forall_impl; [|exact Hall]. simpl. intros a Ha.
      rewrite Hf. exact Ha.
Qed.

(** C3 (amended). When [Plan] returns an executor, its jobs are the jobs
    the transaction returned, in the same order: the job list is in
    ascending order of the tag set keys exactly when the transaction
    returned it so, the core does not sort it.  When [Execute] then
    returns a channel (every mapper of every job opens) and no job
    panics, the executor sends one row per job, in the order of the job
    list, and then closes the channel. *)
Theorem rows_follow_job_list (p : Planner World Expr)
  (st : SelectStatement Expr) (s s1 : St World) (e : Executor World Expr) :
  Planner_Plan Reduce_now p st s = Ret (inl e) s1 ->
  (exists t w tags js w',
      Begin (pDB p) (world s) = (inl t, w) /\
      CreateMapReduceJobs t (Executor_stmt e) tags w = (inl js, w') /\
      map (@TagSet World Expr) (jobs e) = map (@TagSet World Expr) js /\
      (keys_ascending (jobs e) <-> keys_ascending js))
  /\
  (forall s2,
      Executor_Execute InitializeReduceFunc e s1 = Ret None s2 ->
      exists s0 rows s3,
        open_jobs e (jobs e) s1 = Ret None s0 /\
        emits_in_order InitializeReduceFunc (jobs e) s0 rows s3 /\
        List.length rows = List.length (jobs e) /\
        out s2 = out s1 ++ map Send rows ++ [CloseChan]).
Proof.
  intros Hplan. split.
  - unfold Planner_Plan in Hplan.
    destruct (Begin (pDB p) (world s)) as [[t|er] w]; [|discriminate].
    cbn [Dimensions_Normalize set_Condition] in Hplan.
    destruct (Dimensions_Normalize st) as [[i tags] [er|]]; [discriminate|].
    destruct (CreateMapReduceJobs t _ tags w) as [[js|er] w'] eqn:Htx;
      [|discriminate].
    injection Hplan as <- <-. cbn [jobs Executor_stmt].
    exists t, w, tags, js, w'. repeat split.
    + exact Htx.
    + rewrite map_map. apply map_ext. intros j. reflexivity.
    + apply keys_ascending_imprint. intros j. reflexivity.
    + apply keys_ascending_imprint. intros j. reflexivity.
  - intros s2 H. unfold Executor_Execute in H.
    apply bind_Ret_inv in H. destruct H as (err & s0 & Hopen & H).
    destruct err as [er|]; [discriminate|].
    apply bind_Ret_inv in H. destruct H as ([] & s3 & Hrun & H).
    injection H as <-.
    destruct (Executor_execute_Ret e s0 s3 Hrun) as (rows & s4 & Hrows & Hout).
    pose proof (quiet_open_jobs e (jobs e) s1) as Hq. rewrite Hopen in Hq.
    exists s0, rows, s4. repeat split; try assumption.
    + apply (emits_in_order_out _ _ _ _ Hrows).
    + rewrite Hout, Hq. reflexivity.
Qed.

End Properties.

(** ** Further properties of the engine *)

Section Ordering.

Context {World Expr : Type}.

Local Abbreviation Job := (MapReduceJob World Expr).

(** *** bytes.Compare *)

Lemma bytes_Compare_refl a : bytes_Compare a a = 0.
Proof.
  induction a as [|x a IH]; simpl; [reflexivity|].
  rewrite N.compare_refl. exact IH.
Qed.

Lemma bytes_Compare_eq a b : bytes_Compare a b = 0 -> a = b.
Proof.
  revert b. induction a as [|x a IH]; intros [|y b] H; simpl in H;
    try discriminate; [reflexivity|].
  destruct (N.compare (Byte.to_N x) (Byte.to_N y)) eqn:Hc; try discriminate.
  apply N.compare_eq in Hc.
  assert (Hxy : Some x = Some y)
    by (rewrite <- (Byte.of_to_N x), <- (Byte.of_to_N y), Hc; reflexivity).
  injection Hxy as ->. f_equal. apply IH. exact H.
Qed.

Lemma bytes_Compare_antisym a b : bytes_Compare b a = - bytes_Compare a b.
Proof.
  revert b. induction a as [|x a IH]; intros [|y b]; simpl; try reflexivity.
  rewrite (N.compare_antisym (Byte.to_N x) (Byte.to_N y)).
  destruct (N.compare (Byte.to_N x) (Byte.to_N y)); simpl;
    [apply IH|reflexivity|reflexivity].
Qed.

Lemma bytes_Compare_lt_trans a b c :
  bytes_Compare a b = -1 -> bytes_Compare b c = -1 -> bytes_Compare a c = -1.
Proof.
  revert b c. induction a as [|x a IH]; intros [|y b] [|z c] Hab Hbc;
    simpl in *; try discriminate; try reflexivity.
  destruct (N.compare (Byte.to_N x) (Byte.to_N y)) eqn:Hxy; try discriminate;
    destruct (N.compare (Byte.to_N y) (Byte.to_N z)) eqn:Hyz; try discriminate.
  - apply N.compare_eq in Hxy, Hyz. rewrite Hxy, Hyz, N.compare_refl.
    eapply IH; eassumption.
  - apply N.compare_eq in Hxy. rewrite Hxy, Hyz. reflexivity.
  - apply N.compare_eq in Hyz. rewrite <- Hyz, Hxy. reflexivity.
  - assert (Hxz : N.compare (Byte.to_N x) (Byte.to_N z) = Lt).
    { apply N.compare_lt_iff. apply N.compare_lt_iff in Hxy.
      apply N.compare_lt_iff in Hyz. eapply N.lt_trans; eassumption. }
    rewrite Hxz. reflexivity.
Qed.

Lemma bytes_Compare_prefix p a b :
  bytes_Compare (p ++ a) (p ++ b) = bytes_Compare a b.
Proof.
  induction p as [|x p IH]; simpl; [reflexivity|].
  rewrite N.compare_refl. exact IH.
Qed.

(** *** Job keys and their order *)

(** [Less] is a strict total order on the keys: no job is below itself,
    two jobs are never below each other, the relation is transitive, and
    two jobs of which none is below the other have the same key. *)
Theorem MapReduceJobs_Less_strict_order :
  (forall a : Job, MapReduceJobs_Less a a = false) /\
  (forall a b : Job,
      MapReduceJobs_Less a b = true -> MapReduceJobs_Less b a = false) /\
  (forall a b c : Job,
      MapReduceJobs_Less a b = true -> MapReduceJobs_Less b c = true ->
      MapReduceJobs_Less a c = true) /\
  (forall a b : Job,
      MapReduceJobs_Less a b = false -> MapReduceJobs_Less b a = false ->
      fst (MapReduceJob_Key a) = fst (MapReduceJob_Key b)).
Proof.
  unfold MapReduceJobs_Less. repeat split.
  - intros a. rewrite bytes_Compare_refl. reflexivity.
  - intros a b H. apply Z.eqb_eq in H. apply Z.eqb_neq.
    rewrite bytes_Compare_antisym, H. discriminate.
  - intros a b c Hab Hbc. apply Z.eqb_eq in Hab, Hbc. apply Z.eqb_eq.
    eapply bytes_Compare_lt_trans; eassumption.
  - intros a b Hab Hba. apply Z.eqb_neq in Hab, Hba.
    apply bytes_Compare_eq. rewrite bytes_Compare_antisym in Hba.
    set (ka := fst (MapReduceJob_Key a)) in *.
    set (kb := fst (MapReduceJob_Key b)) in *.
    assert (Hv : bytes_Compare ka kb = -1 \/ bytes_Compare ka kb = 0
                 \/ bytes_Compare ka kb = 1).
    { clearbody ka kb. clear. revert kb.
      induction ka as [|x ka IH]; intros [|y kb]; simpl; auto.
      destruct (N.compare (Byte.to_N x) (Byte.to_N y)); auto. }
    lia.
Qed.

(** For two jobs of the same measurement whose key is not yet computed,
    [Less] is the bytewise order of the tag set keys, and it gives the
    same answer on the jobs as [Key] leaves them, with their key kept. *)
Theorem MapReduceJobs_Less_same_measurement (a b : Job) :
  key a = None -> key b = None ->
  MeasurementName a = MeasurementName b ->
  MapReduceJobs_Less a b =
    (bytes_Compare (TagSet.Key (TagSet a)) (TagSet.Key (TagSet b)) =? -1) /\
  MapReduceJobs_Less (snd (MapReduceJob_Key a)) (snd (MapReduceJob_Key b)) =
    MapReduceJobs_Less a b.
Proof.
  intros Ha Hb Hn. unfold MapReduceJobs_Less, MapReduceJob_Key.
  rewrite Ha, Hb, Hn. simpl. rewrite bytes_Compare_prefix. split; reflexivity.
Qed.

(** *** Swap *)

Lemma set_nth_length A (l : list A) i x :
  List.length (set_nth l i x) = List.length l.
Proof.
  revert i. induction l as [|h t IH]; intros [|i]; simpl; auto.
Qed.

Lemma nth_error_set_nth_eq A (l : list A) i x :
  (i < List.length l)%nat -> nth_error (set_nth l i x) i = Some x.
Proof.
  revert i. induction l as [|h t IH]; intros [|i] H; simpl in *; try lia;
    [reflexivity|]. apply IH. lia.
Qed.

Lemma nth_error_set_nth_neq A (l : list A) i j x :
  i <> j -> nth_error (set_nth l i x) j = nth_error l j.
Proof.
  revert i j. induction l as [|h t IH]; intros [|i] [|j] H; simpl;
    try reflexivity; try congruence.
  apply IH. congruence.
Qed.

Lemma nth_error_ext A (l l' : list A) :
  (forall k, nth_error l k = nth_error l' k) -> l = l'.
Proof.
  revert l'. induction l as [|h t IH]; intros [|h' t'] H.
  - reflexivity.
  - specialize (H 0%nat). discriminate.
  - specialize (H 0%nat). discriminate.
  - pose proof (H 0%nat) as H0. simpl in H0. injection H0 as ->.
    f_equal. apply IH. intros k. exact (H (S k)).
Qed.

Lemma nth_error_swap A (a a' : list A) i j k :
  swap a i j = Some a' ->
  nth_error a' k =
  if Nat.eqb k j then nth_error a i
  else if Nat.eqb k i then nth_error a j
  else nth_error a k.
Proof.
  unfold swap. destruct (nth_error a i) as [x|] eqn:Hi; [|discriminate].
  destruct (nth_error a j) as [y|] eqn:Hj; [|discriminate].
  intros H. injection H as <-.
  assert (Hli : (i < List.length a)%nat)
    by (apply nth_error_Some; congruence).
  assert (Hlj : (j < List.length a)%nat)
    by (apply nth_error_Some; congruence).
  destruct (Nat.eqb k j) eqn:Hkj.
  - apply Nat.eqb_eq in Hkj. subst k.
    apply nth_error_set_nth_eq. rewrite set_nth_length. exact Hlj.
  - apply Nat.eqb_neq in Hkj.
    rewrite nth_error_set_nth_neq by congruence.
    destruct (Nat.eqb k i) eqn:Hki.
    + apply Nat.eqb_eq in Hki. subst k.
      apply nth_error_set_nth_eq. exact Hli.
    + apply Nat.eqb_neq in Hki. apply nth_error_set_nth_neq. congruence.
Qed.

(** [Swap] panics exactly when an index is out of range; otherwise it
    exchanges the two elements and leaves the others in place, keeps the
    length, and swapping again gives the list back. *)
Theorem Swap_exchanges (A : Type) (a : list A) (i j : nat) :
  (swap a i j = None <->
   (List.length a <= i)%nat \/ (List.length a <= j)%nat) /\
  (forall a',
      swap a i j = Some a' ->
      List.length a' = List.length a /\
      nth_error a' i = nth_error a j /\
      nth_error a' j = nth_error a i /\
      (forall k, k <> i -> k <> j -> nth_error a' k = nth_error a k) /\
      swap a' i j = Some a).
Proof.
  split.
  - unfold swap. split.
    + destruct (nth_error a i) eqn:Hi.
      * destruct (nth_error a j) eqn:Hj; [discriminate|].
        intros _. right. apply nth_error_None. exact Hj.
      * intros _. left. apply nth_error_None. exact Hi.
    + intros [H|H]; apply nth_error_None in H; rewrite H;
        [reflexivity|destruct (nth_error a i); reflexivity].
  - intros a' Hs.
    assert (Hlen : List.length a' = List.length a).
    { unfold swap in Hs. destruct (nth_error a i); [|discriminate].
      destruct (nth_error a j); [|discriminate]. injection Hs as <-.
      rewrite !set_nth_length. reflexivity. }
    assert (Hi : nth_error a' i = nth_error a j).
    { rewrite (nth_error_swap _ a a' i j i Hs).
      destruct (Nat.eqb i j) eqn:E;
        [apply Nat.eqb_eq in E; subst; reflexivity|].
      rewrite Nat.eqb_refl. reflexivity. }
    assert (Hj : nth_error a' j = nth_error a i).
    { rewrite (nth_error_swap _ a a' i j j Hs), Nat.eqb_refl. reflexivity. }
    repeat split; try assumption.
    + intros k Hki Hkj. rewrite (nth_error_swap _ a a' i j k Hs).
      apply Nat.eqb_neq in Hki, Hkj. rewrite Hki, Hkj. reflexivity.
    + assert (Hex : exists b, swap a' i j = Some b).
      { unfold swap in *. rewrite Hi, Hj.
        destruct (nth_error a i); [|discriminate].
        destruct (nth_error a j); [|discriminate]. eauto. }
      destruct Hex as [b Hb]. rewrite Hb. f_equal.
      apply nth_error_ext. intros k.
      rewrite (nth_error_swap _ a' b i j k Hb).
      destruct (Nat.eqb k j) eqn:Hkj.
      * apply Nat.eqb_eq in Hkj. subst k. exact Hi.
      * destruct (Nat.eqb k i) eqn:Hki.
        -- apply Nat.eqb_eq in Hki. subst k. exact Hj.
        -- rewrite (nth_error_swap _ a a' i j k Hs), Hkj, Hki. reflexivity.
Qed.

(** *** TagSet.AddFilter *)

(** [AddFilter] appends the series id and the filter at the same index:
    after any sequence of calls the two lists are those before followed by
    the ids and the filters added, in order, so they stay of equal length;
    the tags and the key are untouched. *)
Theorem AddFilter_keeps_lists_parallel (ts : TagSet.t) (l : list (Z * string)) :
  List.length (TagSet.Filters ts) = List.length (TagSet.SeriesIDs ts) ->
  List.length (TagSet.Filters (add_filters ts l)) =
    List.length (TagSet.SeriesIDs (add_filters ts l)) /\
  TagSet.SeriesIDs (add_filters ts l) = TagSet.SeriesIDs ts ++ map fst l /\
  TagSet.Filters (add_filters ts l) = TagSet.Filters ts ++ map snd l /\
  TagSet.Tags (add_filters ts l) = TagSet.Tags ts /\
  TagSet.Key (add_filters ts l) = TagSet.Key ts.
Proof.
  intros Hlen.
  assert (H : TagSet.SeriesIDs (add_filters ts l)
              = TagSet.SeriesIDs ts ++ map fst l /\
              TagSet.Filters (add_filters ts l)
              = TagSet.Filters ts ++ map snd l /\
              TagSet.Tags (add_filters ts l) = TagSet.Tags ts /\
              TagSet.Key (add_filters ts l) = TagSet.Key ts).
  { clear Hlen. revert ts. induction l as [|[id f] l IH]; intros ts.
    - simpl. rewrite !app_nil_r. auto.
    - change (add_filters ts ((id, f) :: l))
        with (add_filters (TagSet.AddFilter ts id f) l).
      destruct (IH (TagSet.AddFilter ts id f)) as (H2 & H3 & H4 & H5).
      rewrite H2, H3, H4, H5. simpl. rewrite <- !app_assoc. auto. }
  destruct H as (H2 & H3 & H4 & H5).
  split; [|auto]. rewrite H2, H3, !length_app, !length_map. lia.
Qed.

End Ordering.

Section Hashing.

(** *** The order of strings *)

Lemma bytes_of_string_inj a b : bytes_of_string a = bytes_of_string b -> a = b.
Proof.
  unfold bytes_of_string. intros H.
  rewrite <- (string_of_list_byte_of_string a),
          <- (string_of_list_byte_of_string b), H.
  reflexivity.
Qed.

Lemma bytes_Compare_values a b :
  bytes_Compare a b = -1 \/ bytes_Compare a b = 0 \/ bytes_Compare a b = 1.
Proof.
  revert b. induction a as [|x a IH]; intros [|y b]; simpl; auto.
  destruct (N.compare (Byte.to_N x) (Byte.to_N y)); auto.
Qed.

Lemma string_lt_irrefl a : string_lt a a = false.
Proof. unfold string_lt. rewrite bytes_Compare_refl. reflexivity. Qed.

Lemma string_lt_asym a b : string_lt a b = true -> string_lt b a = false.
Proof.
  unfold string_lt. intros H. apply Z.eqb_eq in H. apply Z.eqb_neq.
  rewrite bytes_Compare_antisym, H. discriminate.
Qed.

Lemma string_lt_trans a b c :
  string_lt a b = true -> string_lt b c = true -> string_lt a c = true.
Proof.
  unfold string_lt. intros Hab Hbc. apply Z.eqb_eq in Hab, Hbc.
  apply Z.eqb_eq. eapply bytes_Compare_lt_trans; eassumption.
Qed.

Lemma string_lt_total a b :
  string_lt a b = false -> string_lt b a = false -> a = b.
Proof.
  unfold string_lt. intros Hab Hba. apply Z.eqb_neq in Hab, Hba.
  apply bytes_of_string_inj, bytes_Compare_eq.
  rewrite bytes_Compare_antisym in Hba.
  destruct (bytes_Compare_values (bytes_of_string a) (bytes_of_string b))
    as [H|[H|H]]; lia.
Qed.

Lemma string_le_trans a b c : string_le a b -> string_le b c -> string_le a c.
Proof.
  unfold string_le. intros Hab Hbc.
  destruct (string_lt c a) eqn:Hca; [|reflexivity].
  destruct (string_lt a b) eqn:Hlt.
  - rewrite (string_lt_trans c a b Hca Hlt) in Hbc. discriminate.
  - pose proof (string_lt_total a b Hlt Hab). subst b. congruence.
Qed.

Lemma empty_string_least k : string_lt k "" = false.
Proof.
  unfold string_lt. simpl. destruct (bytes_of_string k); reflexivity.
Qed.

(** *** sort.Strings *)

Lemma insert_string_perm x l : Permutation (insert_string x l) (x :: l).
Proof.
  induction l as [|y l IH]; simpl; [reflexivity|].
  destruct (string_lt y x); [|reflexivity].
  rewrite IH. apply perm_swap.
Qed.

Lemma sort_Strings_perm l : Permutation (sort_Strings l) l.
Proof.
  induction l as [|x l IH]; simpl; [reflexivity|].
  rewrite insert_string_perm, IH. reflexivity.
Qed.

Lemma insert_string_sorted x l :
  StronglySorted string_le l -> StronglySorted string_le (insert_string x l).
Proof.
  induction 1 as [|y l Hs IH Hall]; simpl.
  - repeat constructor.
  - destruct (string_lt y x) eqn:Hyx.
    + constructor; [exact IH|].
      apply (Permutation_Forall (Permutation_sym (insert_string_perm x l))).
      constructor; [|exact Hall].
      unfold string_le. apply string_lt_asym. exact Hyx.
    + constructor; [constructor; assumption|].
      constructor; [exact Hyx|].
      eapply Forall_impl; [|exact Hall].
      intros z Hz. eapply string_le_trans; [exact Hyx|exact Hz].
Qed.

Lemma sort_Strings_sorted l : StronglySorted string_le (sort_Strings l).
Proof.
  induction l as [|x l IH]; simpl; [constructor|].
  apply insert_string_sorted. exact IH.
Qed.

Lemma sorted_perm_unique l1 l2 :
  StronglySorted string_le l1 -> StronglySorted string_le l2 ->
  Permutation l1 l2 -> l1 = l2.
Proof.
  intros H1. revert l2. induction H1 as [|x l1 Hs1 IH Hall1]; intros l2 H2 Hp.
  - apply Permutation_nil in Hp. congruence.
  - destruct H2 as [|y l2 Hs2 Hall2].
    + apply Permutation_sym, Permutation_nil in Hp. discriminate.
    + assert (Hxy : x = y).
      { assert (Hx : In x (y :: l2))
          by (eapply Permutation_in; [exact Hp|left; reflexivity]).
        assert (Hy : In y (x :: l1))
          by (eapply Permutation_in;
              [apply Permutation_sym; exact Hp|left; reflexivity]).
        destruct Hx as [Hx|Hx]; [congruence|].
        destruct Hy as [Hy|Hy]; [congruence|].
        rewrite Forall_forall in Hall1, Hall2.
        pose proof (Hall1 y Hy) as Hle1. pose proof (Hall2 x Hx) as Hle2.
        unfold string_le in *. apply string_lt_total; assumption. }
      subst y. f_equal. apply IH; [exact Hs2|].
      eapply Permutation_cons_inv. exact Hp.
Qed.

Lemma sort_Strings_unique l1 l2 :
  Permutation l1 l2 -> sort_Strings l1 = sort_Strings l2.
Proof.
  intros Hp. apply sorted_perm_unique; try apply sort_Strings_sorted.
  rewrite !sort_Strings_perm. exact Hp.
Qed.

Lemma sort_Strings_padding n l :
  sort_Strings (repeat "" n ++ l) = repeat "" n ++ sort_Strings l.
Proof.
  induction n as [|n IH]; simpl; [reflexivity|].
  rewrite IH. destruct (repeat "" n ++ sort_Strings l) as [|y rest]; simpl;
    [reflexivity|].
  rewrite empty_string_least. reflexivity.
Qed.

(** [tagsKeys] returns as many empty strings as the row has tags,
    followed by the tag keys in ascending order without loss or
    repetition: twice as many entries as there are tags. *)
Theorem tagsKeys_padded (r : Row.t) :
  tagsKeys r =
    repeat "" (List.length (Row.Tags r))
    ++ sort_Strings (map fst (Row.Tags r)) /\
  List.length (tagsKeys r) = (2 * List.length (Row.Tags r))%nat /\
  StronglySorted string_le (sort_Strings (map fst (Row.Tags r))) /\
  Permutation (sort_Strings (map fst (Row.Tags r))) (map fst (Row.Tags r)).
Proof.
  unfold tagsKeys. rewrite sort_Strings_padding. repeat split.
  - rewrite length_app, repeat_length.
    rewrite (Permutation_length (sort_Strings_perm _)), length_map. lia.
  - apply sort_Strings_sorted.
  - apply sort_Strings_perm.
Qed.

(** *** tagsHash *)

Lemma tag_lookup_missing tags k :
  ~ In k (map fst tags) -> tag_lookup tags k = "".
Proof.
  induction tags as [|[k' v] tags IH]; simpl; [reflexivity|].
  intros H. destruct (String.eqb_spec k' k) as [->|Hne].
  - exfalso. apply H. left. reflexivity.
  - apply IH. intros Hin. apply H. right. exact Hin.
Qed.

Lemma tag_lookup_perm tags tags' k :
  NoDup (map fst tags) -> Permutation tags tags' ->
  tag_lookup tags k = tag_lookup tags' k.
Proof.
  intros Hnd Hp. induction Hp as [|[k1 v1] t t' Hp IH
                                   |[k1 v1] [k2 v2] t|t t' t'' Hp1 IH1 Hp2 IH2].
  - reflexivity.
  - simpl. rewrite IH; [reflexivity|]. simpl in Hnd. inversion Hnd; assumption.
  - simpl. destruct (String.eqb_spec k1 k) as [->|H1];
      destruct (String.eqb_spec k2 k) as [->|H2]; try reflexivity.
    exfalso. simpl in Hnd. inversion Hnd as [|a l Hnin _]. apply Hnin.
    left. reflexivity.
  - rewrite IH1 by exact Hnd. apply IH2.
    eapply Permutation_NoDup; [|exact Hnd]. apply Permutation_map. exact Hp1.
Qed.

Lemma fnv_Write_app h a b :
  fnv_Write h (a ++ b) = fnv_Write (fnv_Write h a) b.
Proof. unfold fnv_Write. apply fold_left_app. Qed.

Lemma fnv_fold_concat (f g : string -> list byte) ks h :
  fold_left (fun h k => fnv_Write (fnv_Write h (f k)) (g k)) ks h =
  fnv_Write h (List.concat (map (fun k => f k ++ g k) ks)).
Proof.
  revert h. induction ks as [|k ks IH]; intros h; simpl; [reflexivity|].
  rewrite IH, !fnv_Write_app. reflexivity.
Qed.

Lemma concat_padding (f : string -> list byte) n l :
  f "" = [] -> List.concat (map f (repeat "" n ++ l)) = List.concat (map f l).
Proof.
  intros Hf. induction n as [|n IH]; simpl; [reflexivity|].
  rewrite Hf. exact IH.
Qed.

(** The hash of a row without an empty tag key is the FNV-1a hash of the
    bytes of key, value, key, value, ... of its tags taken in ascending
    order of the keys, with nothing between a key and its value. *)
Theorem tagsHash_of_sorted_tags (r : Row.t) :
  ~ In "" (map fst (Row.Tags r)) ->
  tagsHash r =
  fnv_Write fnv_offset64
    (List.concat (map (fun k => bytes_of_string k
                           ++ bytes_of_string (tag_lookup (Row.Tags r) k))
                 (sort_Strings (map fst (Row.Tags r))))).
Proof.
  intros Hne. unfold tagsHash.
  rewrite (fnv_fold_concat bytes_of_string
             (fun k => bytes_of_string (tag_lookup (Row.Tags r) k))).
  unfold tagsKeys. rewrite sort_Strings_padding.
  rewrite concat_padding; [reflexivity|].
  rewrite (tag_lookup_missing _ _ Hne). reflexivity.
Qed.

Lemma tagsHash_perm (r r' : Row.t) :
  NoDup (map fst (Row.Tags r)) ->
  Permutation (Row.Tags r) (Row.Tags r') ->
  tagsHash r = tagsHash r'.
Proof.
  intros Hnd Hp. unfold tagsHash.
  assert (Hk : tagsKeys r = tagsKeys r').
  { unfold tagsKeys. apply sort_Strings_unique.
    rewrite (Permutation_length Hp).
    apply Permutation_app_head, Permutation_map. exact Hp. }
  rewrite Hk. generalize fnv_offset64. generalize (tagsKeys r').
  intros ks. induction ks as [|k ks IH]; intros h; simpl; [reflexivity|].
  rewrite (tag_lookup_perm _ _ k Hnd Hp). apply IH.
Qed.

(** The keys returned and the hash do not depend on the order in which
    the tags of the map are visited. *)
Theorem tagsHash_order_independent (r r' : Row.t) :
  NoDup (map fst (Row.Tags r)) ->
  Permutation (Row.Tags r) (Row.Tags r') ->
  tagsKeys r = tagsKeys r' /\ tagsHash r = tagsHash r'.
Proof.
  intros Hnd Hp. split; [|apply tagsHash_perm; assumption].
  unfold tagsKeys. apply sort_Strings_unique.
  rewrite (Permutation_length Hp).
  apply Permutation_app_head, Permutation_map. exact Hp.
Qed.

(** *** Rows.Less *)

(** [Rows.Less] is a strict order: no row is below itself, two rows are
    never below each other, and the relation is transitive.  Two rows with
    the same name and the same tags, visited in any order, are not below
    each other. *)
Theorem Rows_Less_strict_order :
  (forall a, Rows_Less a a = false) /\
  (forall a b, Rows_Less a b = true -> Rows_Less b a = false) /\
  (forall a b c,
      Rows_Less a b = true -> Rows_Less b c = true -> Rows_Less a c = true) /\
  (forall a b,
      Row.Name a = Row.Name b ->
      NoDup (map fst (Row.Tags a)) ->
      Permutation (Row.Tags a) (Row.Tags b) ->
      Rows_Less a b = false /\ Rows_Less b a = false).
Proof.
  unfold Rows_Less. repeat split.
  - intros a. rewrite String.eqb_refl. simpl. apply Z.ltb_irrefl.
  - intros a b. rewrite (String.eqb_sym (Row.Name b) (Row.Name a)).
    destruct (String.eqb (Row.Name a) (Row.Name b)); simpl.
    + intros H. apply Z.ltb_lt in H. apply Z.ltb_ge. lia.
    + apply string_lt_asym.
  - intros a b c.
    destruct (String.eqb_spec (Row.Name a) (Row.Name b)) as [Hab|Hab];
      destruct (String.eqb_spec (Row.Name b) (Row.Name c)) as [Hbc|Hbc];
      simpl; intros H1 H2.
    + rewrite Hab, Hbc, String.eqb_refl. simpl.
      apply Z.ltb_lt in H1, H2. apply Z.ltb_lt. lia.
    + rewrite Hab. destruct (String.eqb_spec (Row.Name b) (Row.Name c));
        [contradiction|exact H2].
    + rewrite <- Hbc. destruct (String.eqb_spec (Row.Name a) (Row.Name b));
        [contradiction|exact H1].
    + pose proof (string_lt_trans _ _ _ H1 H2) as H3.
      destruct (String.eqb_spec (Row.Name a) (Row.Name c)) as [Hac|Hac];
        simpl; [|exact H3].
      rewrite Hac, string_lt_irrefl in H3. discriminate.
  - rewrite H, String.eqb_refl. simpl.
    rewrite (tagsHash_perm a b H0 H1). apply Z.ltb_irrefl.
  - rewrite H, String.eqb_refl. simpl.
    rewrite (tagsHash_perm a b H0 H1). apply Z.ltb_irrefl.
Qed.

End Hashing.

Section Traces.

Context {World Expr : Type}.
Variable InitializeReduceFunc : option Call.t -> ReduceFunc * option error.
Variable Reduce_now : Time -> Expr -> Expr.

Local Abbreviation Job := (MapReduceJob World Expr).
Local Abbreviation Execute := (MapReduceJob_Execute InitializeReduceFunc).

(** *** Exact runs of the loops *)

Lemma Begin_loop_ok (m : Job) c l (s : St World) w' :
  begun l c (TMin m) (world s) = Some w' ->
  Begin_loop m c l s =
  Ret None {| world := w';
              calls := calls s
                       ++ map (fun mm => BeginCall (mid mm) c (TMin m)) l;
              out := out s |}.
Proof.
  revert s. induction l as [|mm rest IH]; intros s H; simpl in *.
  - injection H as <-. unfold ret. rewrite app_nil_r. destruct s; reflexivity.
  - unfold bind, call_Begin.
    destruct (mBegin mm c (TMin m) (world s)) as [[e|] w1]; [discriminate|].
    rewrite (IH (log_call (BeginCall (mid mm) c (TMin m)) w1 s) H). simpl.
    rewrite <- app_assoc. reflexivity.
Qed.

Lemma Begin_loop_fail (m : Job) c pre mm post (s : St World) w1 w2 err :
  begun pre c (TMin m) (world s) = Some w1 ->
  mBegin mm c (TMin m) w1 = (Some err, w2) ->
  Begin_loop m c (pre ++ mm :: post) s =
  Ret (Some err)
      {| world := w2;
         calls := calls s
                  ++ map (fun mm => BeginCall (mid mm) c (TMin m)) (pre ++ [mm]);
         out := out s |}.
Proof.
  revert s. induction pre as [|p pre IH]; intros s H Hmm; simpl in *.
  - injection H as <-. unfold bind, call_Begin. rewrite Hmm. reflexivity.
  - unfold bind at 1. unfold call_Begin.
    destruct (mBegin p c (TMin m) (world s)) as [[e|] w0]; [discriminate|].
    rewrite (IH (log_call (BeginCall (mid p) c (TMin m)) w0 s) H Hmm). simpl.
    rewrite <- app_assoc. reflexivity.
Qed.

Lemma Begin_loop_calls (m : Job) c l (s s' : St World) :
  Begin_loop m c l s = Ret None s' ->
  calls s' = calls s ++ map (fun mm => BeginCall (mid mm) c (TMin m)) l.
Proof.
  revert s. induction l as [|mm rest IH]; intros s H; simpl in H.
  - injection H as <-. rewrite app_nil_r. reflexivity.
  - apply bind_Ret_inv in H. destruct H as (e & s1 & Hc & H).
    destruct e as [e|]; [discriminate|].
    rewrite (IH _ H). unfold call_Begin in Hc.
    destruct (mBegin mm c (TMin m) (world s)). injection Hc as _ <-.
    simpl. rewrite <- app_assoc. reflexivity.
Qed.

Lemma NextInterval_loop_calls (m : Job) l j mo (s s' : St World) outs :
  NextInterval_loop m l j mo s = Ret (outs, None) s' ->
  calls s' =
  calls s ++ map (fun mm => NextIntervalCall (mid mm) (interval m)) l.
Proof.
  revert j mo s. induction l as [|mm rest IH]; intros j mo s H; simpl in H.
  - injection H as _ <-. rewrite app_nil_r. reflexivity.
  - apply bind_Ret_inv in H. destruct H as ([v e] & s1 & Hc & H).
    simpl in H. destruct e as [e|]; [discriminate|].
    rewrite (IH _ _ _ H). unfold call_NextInterval in Hc.
    destruct (mNextInterval mm (interval m) (world s)). injection Hc as _ <-.
    simpl. rewrite <- app_assoc. reflexivity.
Qed.

Lemma bucket_loop_calls (m : Job) f todo mo (s s' : St World) rv :
  bucket_loop m f todo mo s = Ret (rv, None) s' ->
  calls s' =
  calls s
  ++ List.concat
       (repeat (map (fun mm => NextIntervalCall (mid mm) (interval m))
                    (Mappers m))
               (List.length todo)).
Proof.
  revert mo s rv. induction todo as [|b rest IH]; intros mo s rv H;
    simpl in H.
  - injection H as _ <-. simpl. rewrite app_nil_r. reflexivity.
  - apply bind_Ret_inv in H. destruct H as ([outs e] & s1 & Hn & H).
    simpl in H. destruct e as [e|]; [discriminate|].
    destruct f as [f|]; [|discriminate].
    apply bind_Ret_inv in H. destruct H as ([rv' e'] & s2 & Hrest & H).
    simpl in H. injection H as _ -> <-.
    rewrite (IH _ _ _ Hrest), (NextInterval_loop_calls _ _ _ _ _ _ _ Hn).
    simpl. rewrite <- app_assoc. reflexivity.
Qed.

Lemma processAggregate_calls (m : Job) c f rv0 (s s' : St World) rv :
  processAggregate m c f rv0 s = Ret (rv, None) s' ->
  calls s' = calls s ++ pass_calls m (List.length rv0) c.
Proof.
  unfold processAggregate, pass_calls. intros H.
  apply bind_Ret_inv in H. destruct H as (e & s1 & Hb & H).
  destruct e as [e|]; [discriminate|].
  rewrite (bucket_loop_calls _ _ _ _ _ _ _ H), (Begin_loop_calls _ _ _ _ _ Hb).
  rewrite <- app_assoc. reflexivity.
Qed.

Lemma aggregate_loop_calls (m : Job) aggs fs rv0 (s s' : St World) rv :
  aggregate_loop m aggs fs rv0 s = Ret (rv, None) s' ->
  calls s' =
  calls s ++ flat_map (pass_calls m (List.length rv0)) aggs.
Proof.
  revert fs rv0 s. induction aggs as [|c rest IH]; intros fs rv0 s H;
    simpl in H.
  - injection H as _ <-. simpl. rewrite app_nil_r. reflexivity.
  - destruct fs as [|f fs]; [discriminate|].
    apply bind_Ret_inv in H. destruct H as ([rv1 e] & s1 & Hp & H).
    simpl in H. destruct e as [e|]; [discriminate|].
    rewrite (IH _ _ _ H), (processAggregate_calls _ _ _ _ _ _ _ Hp).
    apply processAggregate_extended in Hp. apply extended_length in Hp.
    rewrite Hp. simpl. rewrite <- app_assoc. reflexivity.
Qed.

(** *** The mapper calls of Execute *)

Lemma Execute_success_inv (m m' : Job) (s s' : St World) r :
  Execute m s = Ret m' s' ->
  out s' = out s ++ [Send r] ->
  Row.Err r = None ->
  0 <= pointCountInResult m /\
  m' = job_after m /\
  exists fs rv s1,
    aggregate_loop (job_after m) (passes m) fs
      (initial_resultValues (job_after m) (Z.to_nat (pointCountInResult m))) s
    = Ret (rv, None) s1 /\
    calls s' = calls s1.
Proof.
  intros Hex Hout Herr. unfold MapReduceJob_Execute in Hex.
  fold (job_after m) in Hex. fold (passes m) in Hex.
  destruct (init_reduceFuncs InitializeReduceFunc (AggregateCalls (stmt m)))
    as [fs [e|]].
  - simpl in Hex. injection Hex as <- <-. simpl in Hout.
    apply send_inj in Hout. subst r. discriminate.
  - destruct (pointCountInResult m <? 0) eqn:Hneg; [discriminate|].
    apply Z.ltb_ge in Hneg.
    apply bind_Ret_inv in Hex. destruct Hex as [[rv err] [s1 [Hloop Hex]]].
    match type of Hloop with
    | aggregate_loop ?a ?b ?c ?d s = _ =>
        pose proof (quiet_aggregate_loop a b c d s) as Hq
    end.
    rewrite Hloop in Hq. cbn [snd fst] in Hex. destruct err as [e|].
    + unfold bind, send, ret in Hex. injection Hex as <- <-. simpl in Hout.
      rewrite Hq in Hout. apply send_inj in Hout. subst r. discriminate.
    + split; [exact Hneg|].
      destruct (Nat.eqb (List.length (AggregateCalls (stmt m))) 0).
      * destruct (processRawResults (job_after m) rv) as [row|];
          [|discriminate].
        unfold bind, send, ret in Hex. injection Hex as <- <-.
        split; [reflexivity|]. eauto.
      * unfold bind, send, ret in Hex. injection Hex as <- <-.
        split; [reflexivity|]. eauto.
Qed.

(** A job that completes without error, raw or not, has made exactly
    these mapper calls: for each aggregate call in turn (the nil call for
    a raw query), [Begin] at [TMin] on every mapper in order, then, once
    per bucket, [NextInterval] of the effective interval on every mapper
    in order. *)
Theorem Execute_mapper_calls (m m' : Job) (s s' : St World) r :
  Execute m s = Ret m' s' ->
  out s' = out s ++ [Send r] ->
  Row.Err r = None ->
  calls s' =
  calls s
  ++ flat_map (pass_calls (job_after m) (Z.to_nat (pointCountInResult m)))
       (passes m).
Proof.
  intros Hex Hout Herr.
  destruct (Execute_success_inv m m' s s' r Hex Hout Herr)
    as (_ & _ & fs & rv & s1 & Hloop & ->).
  rewrite (aggregate_loop_calls _ _ _ _ _ _ _ Hloop).
  rewrite initial_resultValues_length. reflexivity.
Qed.

(** *** What Execute never calls *)

Lemma logs_only_ret P A (a : A) : logs_only (World:=World) P (ret a).
Proof. intros s. exists []. split; [constructor|]. simpl. rewrite app_nil_r. reflexivity. Qed.

Lemma logs_only_panic P A : logs_only P (@panic World A).
Proof. intros s. exists []. split; [constructor|]. simpl. rewrite app_nil_r. reflexivity. Qed.

Lemma logs_only_send P r : logs_only (World:=World) P (send r).
Proof. intros s. exists []. split; [constructor|]. simpl. rewrite app_nil_r. reflexivity. Qed.

Lemma logs_only_bind P A B (c : M World A) (k : A -> M World B) :
  logs_only P c -> (forall a, logs_only P (k a)) -> logs_only P (bind c k).
Proof.
  intros Hc Hk s. unfold bind. destruct (Hc s) as (l1 & Hl1 & H1).
  destruct (c s) as [a s1|s1].
  - destruct (Hk a s1) as (l2 & Hl2 & H2). exists (l1 ++ l2).
    split; [apply Forall_app; auto|].
    destruct (k a s1); rewrite H2, H1, app_assoc; reflexivity.
  - exists l1. auto.
Qed.

Lemma logs_only_weaken (P Q : MapperCall -> Prop) A (c : M World A) :
  (forall x, P x -> Q x) -> logs_only P c -> logs_only Q c.
Proof.
  intros HPQ Hc s. destruct (Hc s) as (l & Hl & H). exists l.
  split; [eapply Forall_impl; eauto|exact H].
Qed.

Lemma logs_only_Begin_loop (m : Job) i c l :
  logs_only (work_call (TMin m) i) (Begin_loop m c l).
Proof.
  induction l as [|mm rest IH]; simpl; [apply logs_only_ret|].
  apply logs_only_bind.
  - intros s. exists [BeginCall (mid mm) c (TMin m)].
    split; [repeat constructor|]. unfold call_Begin.
    destruct (mBegin mm c (TMin m) (world s)). reflexivity.
  - intros [e|]; [apply logs_only_ret|exact IH].
Qed.

Lemma logs_only_NextInterval_loop (m : Job) t l j mo :
  logs_only (work_call t (interval m)) (NextInterval_loop m l j mo).
Proof.
  revert j mo. induction l as [|mm rest IH]; intros j mo; simpl;
    [apply logs_only_ret|].
  apply logs_only_bind.
  - intros s. exists [NextIntervalCall (mid mm) (interval m)].
    split; [repeat constructor|]. unfold call_NextInterval.
    destruct (mNextInterval mm (interval m) (world s)). reflexivity.
  - intros [v [e|]]; simpl; [apply logs_only_ret|apply IH].
Qed.

Lemma logs_only_bucket_loop (m : Job) t f todo mo :
  logs_only (work_call t (interval m)) (bucket_loop m f todo mo).
Proof.
  revert mo. induction todo as [|b rest IH]; intros mo; simpl;
    [apply logs_only_ret|].
  apply logs_only_bind; [apply logs_only_NextInterval_loop|].
  intros [outs [e|]]; simpl; [apply logs_only_ret|].
  destruct f as [f|]; [|apply logs_only_panic].
  apply logs_only_bind; [apply IH|]. intros a. apply logs_only_ret.
Qed.

Lemma logs_only_aggregate_loop (m : Job) aggs fs rv :
  logs_only (work_call (TMin m) (interval m)) (aggregate_loop m aggs fs rv).
Proof.
  revert fs rv. induction aggs as [|c rest IH]; intros fs rv; simpl;
    [apply logs_only_ret|].
  destruct fs as [|f fs]; [apply logs_only_panic|].
  apply logs_only_bind.
  - unfold processAggregate. apply logs_only_bind;
      [apply logs_only_Begin_loop|].
    intros [e|]; [apply logs_only_ret|apply logs_only_bucket_loop].
  - intros [rv' [e|]]; simpl; [apply logs_only_ret|apply IH].
Qed.

Lemma logs_only_Execute (m : Job) :
  logs_only (work_call (TMin m) (effective_interval m)) (Execute m).
Proof.
  unfold MapReduceJob_Execute. fold (job_after m).
  destruct (init_reduceFuncs InitializeReduceFunc (AggregateCalls (stmt m)))
    as [fs [e|]].
  - apply logs_only_bind; [apply logs_only_send|].
    intros a. apply logs_only_ret.
  - cbv zeta. destruct (pointCountInResult m <? 0); [apply logs_only_panic|].
    apply logs_only_bind.
    + rewrite <- (TMin_job_after m), <- (interval_job_after m).
      apply logs_only_aggregate_loop.
    + intros [rv [e|]]; cbn [snd fst].
      * apply logs_only_bind; [apply logs_only_send|].
        intros a. apply logs_only_ret.
      * destruct (Nat.eqb (List.length (AggregateCalls (stmt m))) 0).
        -- destruct (processRawResults (job_after m) rv);
             [|apply logs_only_panic].
           apply logs_only_bind; [apply logs_only_send|].
           intros a. apply logs_only_ret.
        -- apply logs_only_bind; [apply logs_only_send|].
           intros a. apply logs_only_ret.
Qed.

(** Whatever the outcome of [Execute] (a row, an error row or a panic),
    the only mapper methods it has called are [Begin], always at [TMin],
    and [NextInterval], always with the effective interval; it never
    opens or closes a mapper. *)
Theorem Execute_calls_only_Begin_and_NextInterval (m : Job) (s : St World) :
  exists l,
    Forall (work_call (TMin m) (effective_interval m)) l /\
    (forall m' s', Execute m s = Ret m' s' -> calls s' = calls s ++ l) /\
    (forall s', Execute m s = Panic s' -> calls s' = calls s ++ l).
Proof.
  destruct (logs_only_Execute m s) as (l & Hl & H). exists l.
  split; [exact Hl|]. split.
  - intros m' s' E. rewrite E in H. exact H.
  - intros s' E. rewrite E in H. exact H.
Qed.

(** *** The single bucket *)

(** A job with aggregate calls and no start time or no interval that
    completes without error has spanned the whole range with one bucket:
    its interval is overwritten with [TMax - TMin], the row has one value
    row, starting with the UTC time of [TMin], and for each aggregate call
    every mapper was begun and then asked for exactly one interval of
    [TMax - TMin]. *)
Theorem Execute_single_bucket (m m' : Job) (s s' : St World) r :
  AggregateCalls (stmt m) <> [] ->
  TMin m = 0 \/ interval m = 0 ->
  in_int64 (TMin m) ->
  Execute m s = Ret m' s' ->
  out s' = out s ++ [Send r] ->
  Row.Err r = None ->
  m' = set_interval m (sub64 (TMax m) (TMin m)) /\
  (exists vs,
      Row.Values r = [VTime (utc (TMin m)) :: vs] /\
      List.length vs = List.length (AggregateCalls (stmt m))) /\
  calls s' =
  calls s
  ++ flat_map
       (fun c =>
          map (fun mm => BeginCall (mid mm) (Some c) (TMin m)) (Mappers m)
          ++ map (fun mm => NextIntervalCall (mid mm) (sub64 (TMax m) (TMin m)))
                 (Mappers m))
       (AggregateCalls (stmt m)).
Proof.
  intros Hagg Hzero Hmin Hex Hout Herr.
  assert (Hs : single_bucket m = true).
  { unfold single_bucket. destruct Hzero as [-> | ->]; simpl;
      [reflexivity|rewrite orb_true_r; reflexivity]. }
  assert (Hc : pointCountInResult m = 1)
    by (unfold pointCountInResult; rewrite Hs; reflexivity).
  assert (Hja : job_after m = set_interval m (sub64 (TMax m) (TMin m)))
    by (unfold job_after; rewrite Hs; reflexivity).
  destruct (Execute_aggregate_success _ m m' s s' r Hagg Hex Hout Herr)
    as (_ & Hm' & _ & _ & _ & Hvals).
  destruct (Execute_success_inv m m' s s' r Hex Hout Herr)
    as (_ & _ & fs & rv & s1 & Hloop & Hcalls).
  split; [congruence|]. split.
  - rewrite Hc, Hja in Hvals. simpl in Hvals.
    inversion Hvals as [|b y l l' (vs & Hy & Hvs) Hrest]; subst.
    inversion Hrest; subst. exists vs. split; [|exact Hvs].
    unfold add64, mul64. simpl. rewrite Z.add_0_r.
    rewrite (wrap64_id _ Hmin). reflexivity.
  - rewrite Hcalls, (aggregate_loop_calls _ _ _ _ _ _ _ Hloop).
    rewrite initial_resultValues_length, Hc, Hja. f_equal.
    unfold passes.
    assert (Hraw : Nat.eqb (List.length (AggregateCalls (stmt m))) 0 = false).
    { destruct (AggregateCalls (stmt m)); [congruence|reflexivity]. }
    simpl. rewrite Hraw. rewrite flat_map_concat_map, map_map.
    rewrite <- flat_map_concat_map. apply flat_map_ext. intros c.
    unfold pass_calls. simpl. rewrite app_nil_r. reflexivity.
Qed.

(** *** A mapper that cannot begin *)

(** When [Begin] fails on a mapper in the first aggregate pass (those
    before it having begun), [Execute] sends one row with the job's name
    and tags and that error, after the [Begin] calls up to that mapper and
    no [NextInterval] at all. *)
Theorem Execute_Begin_failure (m : Job) (s : St World)
  fs c pre mm post w1 w2 err :
  init_reduceFuncs InitializeReduceFunc (AggregateCalls (stmt m)) = (fs, None) ->
  0 <= pointCountInResult m ->
  hd_error (passes m) = Some c ->
  Mappers m = pre ++ mm :: post ->
  begun pre c (TMin m) (world s) = Some w1 ->
  mBegin mm c (TMin m) w1 = (Some err, w2) ->
  Execute m s =
  Ret (job_after m)
      {| world := w2;
         calls := calls s
                  ++ map (fun mm => BeginCall (mid mm) c (TMin m)) (pre ++ [mm]);
         out := out s ++ [Send {| Row.Name := MeasurementName m;
                                  Row.Tags := TagSet.Tags (TagSet m);
                                  Row.Columns := []; Row.Values := [];
                                  Row.Err := Some err |}] |}.
Proof.
  intros Hinit Hcount Hc Hm Hpre Hmm.
  pose proof (init_reduceFuncs_length _ _ _ Hinit) as Hlen.
  unfold MapReduceJob_Execute. fold (job_after m). fold (passes m).
  rewrite Hinit. cbv zeta.
  apply Z.ltb_ge in Hcount. rewrite Hcount.
  assert (Hfs : exists f fs',
             (if Nat.eqb (List.length (AggregateCalls (stmt m))) 0
              then fs ++ [fst (InitializeReduceFunc None)] else fs) = f :: fs').
  { destruct (AggregateCalls (stmt m)) as [|a l]; simpl in *.
    - destruct fs; [simpl; eauto|discriminate].
    - destruct fs; [discriminate|eauto]. }
  destruct Hfs as (f & fs' & ->).
  destruct (passes m) as [|c0 rest]; [discriminate|].
  simpl in Hc. injection Hc as ->. simpl.
  unfold processAggregate.
  assert (HB : Begin_loop (job_after m) c (Mappers (job_after m)) s =
               Ret (Some err)
                 {| world := w2;
                    calls := calls s
                      ++ map (fun mm => BeginCall (mid mm) c (TMin m))
                           (pre ++ [mm]);
                    out := out s |}).
  { replace (Mappers (job_after m)) with (pre ++ mm :: post)
      by (rewrite <- Hm; unfold job_after; destruct (single_bucket m);
          reflexivity).
    rewrite <- (TMin_job_after m).
    apply Begin_loop_fail with (w1 := w1);
      rewrite (TMin_job_after m); assumption. }
  unfold bind. rewrite HB. simpl. unfold send, ret, error_row. simpl.
  unfold job_after. destruct (single_bucket m); reflexivity.
Qed.

(** *** What the reducer is applied to *)

Lemma firstn_set_nth A (l : list A) j x :
  (j < List.length l)%nat ->
  firstn (S j) (set_nth l j x) = firstn j l ++ [x].
Proof.
  revert j. induction l as [|h t IH]; intros [|j] H; simpl in *; try lia.
  - reflexivity.
  - f_equal. apply IH. lia.
Qed.

Lemma next_outputs_length l i (w w' : World) outs :
  next_outputs l i w = Some (outs, w') -> List.length outs = List.length l.
Proof.
  revert w w' outs. induction l as [|mm l IH]; intros w w' outs H;
    simpl in H.
  - injection H as <- _. reflexivity.
  - destruct (mNextInterval mm i w) as [[v [e|]] w1]; [discriminate|].
    destruct (next_outputs l i w1) as [[vs w2]|] eqn:Hn; [|discriminate].
    injection H as <- _. simpl. f_equal. eapply IH. eassumption.
Qed.

Lemma NextInterval_loop_exact (m : Job) l j mo (s : St World) outs w' :
  next_outputs l (interval m) (world s) = Some (outs, w') ->
  List.length mo = (j + List.length l)%nat ->
  NextInterval_loop m l j mo s =
  Ret (firstn j mo ++ outs, None)
      {| world := w';
         calls := calls s
                  ++ map (fun mm => NextIntervalCall (mid mm) (interval m)) l;
         out := out s |}.
Proof.
  revert j mo s outs w'. induction l as [|mm l IH];
    intros j mo s outs w' H Hlen; simpl in *.
  - injection H as <- <-. unfold ret. rewrite !app_nil_r.
    rewrite Nat.add_0_r in Hlen. rewrite <- Hlen, firstn_all.
    destruct s; reflexivity.
  - unfold bind, call_NextInterval.
    destruct (mNextInterval mm (interval m) (world s)) as [[v [e|]] w1];
      [discriminate|].
    destruct (next_outputs l (interval m) w1) as [[vs w2]|] eqn:Hn;
      [|discriminate].
    injection H as <- <-. simpl.
    rewrite (IH (S j) (set_nth mo j v)
               (log_call (NextIntervalCall (mid mm) (interval m)) w1 s) vs w2
               Hn).
    + rewrite firstn_set_nth by lia. simpl. rewrite <- !app_assoc. reflexivity.
    + rewrite set_nth_length. lia.
Qed.

Lemma bucket_loop_exact (m : Job) f todo mo (s : St World) outss w' :
  rounds (List.length todo) (Mappers m) (interval m) (world s)
  = Some (outss, w') ->
  List.length mo = List.length (Mappers m) ->
  bucket_loop m (Some f) todo mo s =
  Ret (map (fun p => fst p ++ [f (snd p)]) (combine todo outss), None)
      {| world := w';
         calls := calls s
                  ++ List.concat
                       (repeat (map (fun mm => NextIntervalCall (mid mm)
                                                 (interval m))
                                    (Mappers m))
                               (List.length todo));
         out := out s |}.
Proof.
  revert mo s outss w'. induction todo as [|b todo IH];
    intros mo s outss w' H Hlen; simpl in *.
  - injection H as <- <-. unfold ret. rewrite app_nil_r.
    destruct s; reflexivity.
  - destruct (next_outputs (Mappers m) (interval m) (world s))
      as [[vs w1]|] eqn:Hn; [|discriminate].
    destruct (rounds (List.length todo) (Mappers m) (interval m) w1)
      as [[vss w2]|] eqn:Hr; [|discriminate].
    injection H as <- <-. unfold bind at 1.
    rewrite (NextInterval_loop_exact m (Mappers m) 0 mo s vs w1 Hn Hlen).
    simpl. unfold bind.
    rewrite (IH vs {| world := w1;
                      calls := calls s
                        ++ map (fun mm => NextIntervalCall (mid mm) (interval m))
                             (Mappers m);
                      out := out s |} vss w2 Hr).
    + simpl. unfold ret. rewrite <- !app_assoc. reflexivity.
    + eapply next_outputs_length. eassumption.
Qed.

(** One aggregate pass appends to every bucket the reducer applied to the
    outputs of that bucket's round: when [Begin] succeeds on every mapper
    and the mappers answer one round of [NextInterval] per bucket,
    [processAggregate] appends to bucket [k] the value of the reducer on
    the outputs of round [k], listed in the order of the mappers. *)
Theorem processAggregate_reduces_rounds (m : Job) c f rv0 (s : St World)
  w1 outss w2 :
  begun (Mappers m) c (TMin m) (world s) = Some w1 ->
  rounds (List.length rv0) (Mappers m) (interval m) w1 = Some (outss, w2) ->
  processAggregate m c (Some f) rv0 s =
  Ret (map (fun p => fst p ++ [f (snd p)]) (combine rv0 outss), None)
      {| world := w2;
         calls := calls s ++ pass_calls m (List.length rv0) c;
         out := out s |}.
Proof.
  intros Hb Hr. unfold processAggregate, bind.
  rewrite (Begin_loop_ok m c (Mappers m) s w1 Hb).
  rewrite (bucket_loop_exact m f rv0 (repeat VNil (List.length (Mappers m)))
             {| world := w1;
                calls := calls s
                  ++ map (fun mm => BeginCall (mid mm) c (TMin m)) (Mappers m);
                out := out s |}
             outss w2 Hr (repeat_length _ _)).
  simpl. unfold pass_calls. rewrite <- app_assoc. reflexivity.
Qed.

(** *** Error rows *)

Lemma processRawResults_no_error (m : Job) rv row :
  processRawResults m rv = Some row ->
  Row.Err row = None /\ In "time" (Row.Columns row).
Proof.
  intros H. rewrite (processRawResults_Columns m rv row H).
  split.
  - unfold processRawResults in H. destruct rv as [|first rest];
      [discriminate|].
    destruct (negb (Nat.eqb (List.length first) 2)).
    + injection H as <-. reflexivity.
    + destruct (nth 1 first VNil); try discriminate.
      match type of H with
      | context [raw_rows ?a ?b ?c ?d] => destruct (raw_rows a b c d)
      end; [|discriminate].
      injection H as <-. reflexivity.
  - unfold raw_columns.
    destruct (existsb (fun n => String.eqb n "time") (NamesInSelect (stmt m)))
      eqn:He; [|left; reflexivity].
    apply existsb_exists in He. destruct He as (n & Hin & Hn).
    apply String.eqb_eq in Hn. subst n. exact Hin.
Qed.

(** A row sent by [Execute] with [Err] set holds nothing else but, when
    the reducers had been initialised, the name and tags of the job: it
    has no columns and no values, so no partial result is sent.  A row
    sent without error has "time" as its first column or, for a raw
    query, among its columns. *)
Theorem Execute_error_row_shape (m m' : Job) (s s' : St World) r :
  Execute m s = Ret m' s' ->
  out s' = out s ++ [Send r] ->
  (forall e,
      Row.Err r = Some e ->
      Row.Columns r = [] /\ Row.Values r = [] /\
      ((snd (init_reduceFuncs InitializeReduceFunc (AggregateCalls (stmt m)))
        = Some e /\ Row.Name r = "" /\ Row.Tags r = [] /\ calls s' = calls s)
       \/
       (snd (init_reduceFuncs InitializeReduceFunc (AggregateCalls (stmt m)))
        = None /\ Row.Name r = MeasurementName m /\
        Row.Tags r = TagSet.Tags (TagSet m)))) /\
  (Row.Err r = None -> In "time" (Row.Columns r)).
Proof.
  intros Hex Hout. unfold MapReduceJob_Execute in Hex.
  fold (job_after m) in Hex.
  assert (Hn : MeasurementName (job_after m) = MeasurementName m)
    by (unfold job_after; destruct (single_bucket m); reflexivity).
  assert (Ht : TagSet (job_after m) = TagSet m)
    by (unfold job_after; destruct (single_bucket m); reflexivity).
  destruct (init_reduceFuncs InitializeReduceFunc (AggregateCalls (stmt m)))
    as [fs [e0|]].
  - unfold bind, send, ret in Hex. injection Hex as <- <-. simpl in Hout.
    apply send_inj in Hout. subst r. simpl. split; [|discriminate].
    intros e He. injection He as <-. auto 10.
  - cbv zeta in Hex. destruct (pointCountInResult m <? 0); [discriminate|].
    apply bind_Ret_inv in Hex. destruct Hex as ([rv err] & s1 & Hloop & Hex).
    match type of Hloop with
    | aggregate_loop ?a ?b ?c ?d s = _ =>
        pose proof (quiet_aggregate_loop a b c d s) as Hq
    end.
    rewrite Hloop in Hq. cbn [snd fst] in Hex. destruct err as [e0|].
    + unfold bind, send, ret in Hex. injection Hex as <- <-. simpl in Hout.
      rewrite Hq in Hout. apply send_inj in Hout. subst r. simpl.
      split; [|discriminate]. intros e He. injection He as <-.
      rewrite Hn, Ht. auto 10.
    + destruct (Nat.eqb (List.length (AggregateCalls (stmt m))) 0).
      * destruct (processRawResults (job_after m) rv) as [row|] eqn:Hraw;
          [|discriminate].
        unfold bind, send, ret in Hex. injection Hex as <- <-. simpl in Hout.
        rewrite Hq in Hout. apply send_inj in Hout. subst r.
        destruct (processRawResults_no_error _ _ _ Hraw) as (Herr & Htime).
        split; [|intros _; exact Htime].
        intros e He. rewrite Herr in He. discriminate.
      * unfold bind, send, ret in Hex. injection Hex as <- <-. simpl in Hout.
        rewrite Hq in Hout. apply send_inj in Hout. subst r. simpl.
        split; [discriminate|]. intros _. left. reflexivity.
Qed.

(** *** Opening and closing the jobs of an executor *)

Lemma close_jobs_exact (js : list Job) (s : St World) :
  close_jobs js s =
  Ret tt {| world := closed_jobs js (world s);
            calls := calls s ++ map CloseCall (all_mapper_ids js);
            out := out s |}.
Proof.
  revert s. induction js as [|j js IH]; intros s; simpl.
  - unfold ret. rewrite app_nil_r. destruct s; reflexivity.
  - unfold bind, MapReduceJob_Close. rewrite Close_loop_run, IH. simpl.
    rewrite map_app, <- app_assoc. reflexivity.
Qed.

Lemma open_jobs_ok (e : Executor World Expr) (l : list Job) (s : St World) w' :
  opened_jobs l (world s) = Some w' ->
  open_jobs e l s =
  Ret None {| world := w';
              calls := calls s ++ map OpenCall (all_mapper_ids l);
              out := out s |}.
Proof.
  revert s. induction l as [|j l IH]; intros s H; simpl in *.
  - injection H as <-. unfold ret. rewrite app_nil_r. destruct s; reflexivity.
  - destruct (opened (Mappers j) (world s)) as [w1|] eqn:Hj; [|discriminate].
    unfold bind, MapReduceJob_Open. rewrite (Open_loop_ok j _ s w1 Hj).
    rewrite (IH {| world := w1;
                   calls := calls s
                            ++ map OpenCall (map (@mid World) (Mappers j));
                   out := out s |} H).
    simpl. rewrite map_app, <- app_assoc. reflexivity.
Qed.

Lemma open_jobs_fail (e : Executor World Expr) (pre : list Job) j post
  (s : St World) w0 mpre mm mpost w1 w2 err :
  opened_jobs pre (world s) = Some w0 ->
  Mappers j = mpre ++ mm :: mpost ->
  opened mpre w0 = Some w1 ->
  mOpen mm w1 = (Some err, w2) ->
  open_jobs e (pre ++ j :: post) s =
  Ret (Some err)
      {| world := closed_jobs (jobs e) (closed (Mappers j) w2);
         calls := calls s
                  ++ map OpenCall (all_mapper_ids pre)
                  ++ map OpenCall (map (@mid World) (mpre ++ [mm]))
                  ++ map CloseCall (map (@mid World) (Mappers j))
                  ++ map CloseCall (all_mapper_ids (jobs e));
         out := out s |}.
Proof.
  revert s. induction pre as [|p pre IH]; intros s Hpre Hj Hm Hmm; simpl in *.
  - injection Hpre as <-. unfold bind at 1. unfold MapReduceJob_Open.
    rewrite Hj at 1.
    rewrite (Open_loop_fail j mpre mm mpost s w1 w2 err Hm Hmm).
    unfold bind, Executor_close. rewrite close_jobs_exact. simpl.
    unfold ret. rewrite <- !app_assoc. reflexivity.
  - destruct (opened (Mappers p) (world s)) as [wp|] eqn:Hp; [|discriminate].
    unfold bind at 1. unfold MapReduceJob_Open.
    rewrite (Open_loop_ok p _ s wp Hp).
    rewrite (IH {| world := wp;
                   calls := calls s
                            ++ map OpenCall (map (@mid World) (Mappers p));
                   out := out s |} Hpre Hj Hm Hmm).
    simpl. rewrite !map_app, <- !app_assoc. reflexivity.
Qed.

(** When a mapper cannot be opened (the jobs before its job and the
    mappers before it having opened), [Executor.Execute] returns that
    mapper's error without any channel event.  The mappers of the failing
    job are closed by the job, and then every mapper of every job of the
    executor is closed, so the mappers of the failing job are closed
    twice. *)
Theorem Executor_Execute_open_failure (e : Executor World Expr) (s : St World)
  (pre : list Job) j post w0 mpre mm mpost w1 w2 err :
  jobs e = pre ++ j :: post ->
  opened_jobs pre (world s) = Some w0 ->
  Mappers j = mpre ++ mm :: mpost ->
  opened mpre w0 = Some w1 ->
  mOpen mm w1 = (Some err, w2) ->
  Executor_Execute InitializeReduceFunc e s =
  Ret (Some err)
      {| world := closed_jobs (jobs e) (closed (Mappers j) w2);
         calls := calls s
                  ++ map OpenCall (all_mapper_ids pre)
                  ++ map OpenCall (map (@mid World) (mpre ++ [mm]))
                  ++ map CloseCall (map (@mid World) (Mappers j))
                  ++ map CloseCall (all_mapper_ids (jobs e));
         out := out s |}.
Proof.
  intros He Hpre Hj Hm Hmm. unfold Executor_Execute. unfold bind.
  rewrite He at 1.
  rewrite (open_jobs_fail e pre j post s w0 mpre mm mpost w1 w2 err
             Hpre Hj Hm Hmm).
  reflexivity.
Qed.

Lemma Execute_job (m m' : Job) (s s' : St World) :
  Execute m s = Ret m' s' ->
  (snd (init_reduceFuncs InitializeReduceFunc (AggregateCalls (stmt m)))
   <> None /\ m' = m)
  \/
  (snd (init_reduceFuncs InitializeReduceFunc (AggregateCalls (stmt m)))
   = None /\ m' = job_after m).
Proof.
  unfold MapReduceJob_Execute. fold (job_after m).
  destruct (init_reduceFuncs InitializeReduceFunc (AggregateCalls (stmt m)))
    as [fs [e|]].
  - unfold bind, send, ret. intros H. injection H as <- _.
    left. split; [discriminate|reflexivity].
  - cbv zeta. destruct (pointCountInResult m <? 0); [discriminate|].
    intros H. apply bind_Ret_inv in H. destruct H as ([rv err] & s1 & _ & H).
    cbn [snd fst] in H. right. split; [reflexivity|].
    destruct err as [e|].
    + unfold bind, send, ret in H. injection H as <- _. reflexivity.
    + destruct (Nat.eqb (List.length (AggregateCalls (stmt m))) 0).
      * destruct (processRawResults (job_after m) rv); [|discriminate].
        unfold bind, send, ret in H. injection H as <- _. reflexivity.
      * unfold bind, send, ret in H. injection H as <- _. reflexivity.
Qed.

Lemma Execute_Mappers (m m' : Job) (s s' : St World) :
  Execute m s = Ret m' s' -> Mappers m' = Mappers m.
Proof.
  intros H. destruct (Execute_job m m' s s' H) as [[_ ->]|[_ ->]];
    [reflexivity|].
  unfold job_after. destruct (single_bucket m); reflexivity.
Qed.

(** [Execute] changes nothing of the job but its interval: the job is
    left as it was when the reducers cannot be initialised or when it is
    an aggregate job with a start time and an interval; otherwise (no
    start time, no interval or a raw query) its interval is overwritten
    with [TMax - TMin], also when the row sent is an error row. *)
Theorem Execute_overwrites_interval_only (m m' : Job) (s s' : St World) :
  Execute m s = Ret m' s' ->
  MeasurementName m' = MeasurementName m /\
  TagSet m' = TagSet m /\
  Mappers m' = Mappers m /\
  TMin m' = TMin m /\
  TMax m' = TMax m /\
  key m' = key m /\
  stmt m' = stmt m /\
  (single_bucket m = false -> m' = m) /\
  (single_bucket m = true ->
   snd (init_reduceFuncs InitializeReduceFunc (AggregateCalls (stmt m)))
   = None ->
   interval m' = sub64 (TMax m) (TMin m)).
Proof.
  intros H. unfold job_after in *.
  destruct (Execute_job m m' s s' H) as [[Hi ->]|[Hi ->]].
  - repeat split; auto. intros _ Hn. contradiction.
  - unfold job_after. destruct (single_bucket m); repeat split; auto;
      discriminate.
Qed.

Lemma run_jobs_calls (l : list Job) (s : St World) :
  exists work,
    Forall is_work_call work /\
    match run_jobs InitializeReduceFunc l s with
    | Ret js s' =>
        calls s' = calls s ++ work /\ all_mapper_ids js = all_mapper_ids l
    | Panic s' => calls s' = calls s ++ work
    end.
Proof.
  revert s. induction l as [|j l IH]; intros s; simpl.
  - exists []. split; [constructor|]. simpl. rewrite app_nil_r. auto.
  - unfold bind at 1.
    destruct (logs_only_Execute j s) as (w1 & Hw1 & H1).
    assert (Hw1' : Forall is_work_call w1).
    { eapply Forall_impl; [|exact Hw1]. intros [] Hc; simpl in *; tauto. }
    destruct (Execute j s) as [j' s1|s1] eqn:Hex.
    + destruct (IH s1) as (w2 & Hw2 & H2). exists (w1 ++ w2).
      split; [apply Forall_app; auto|].
      unfold bind.
      destruct (run_jobs InitializeReduceFunc l s1) as [js s2|s2].
      * destruct H2 as [H2 Hids]. simpl. unfold ret.
        rewrite H2, H1, app_assoc, Hids, (Execute_Mappers _ _ _ _ Hex). auto.
      * rewrite H2, H1, app_assoc. reflexivity.
    + exists w1. auto.
Qed.

(** When every mapper opens, [Executor.Execute] never fails.  Whether the
    jobs all return or one of them panics, every mapper of every job has
    been opened once, first, and closed once, last, with only [Begin] and
    [NextInterval] calls in between.  The channel is closed after one row
    per job when all return, and is left open after fewer rows when a job
    panics. *)
Theorem Executor_Execute_closes_every_mapper
  (e : Executor World Expr) (s : St World) w :
  opened_jobs (jobs e) (world s) = Some w ->
  (forall err s', Executor_Execute InitializeReduceFunc e s <> Ret (Some err) s') /\
  (forall s',
      Executor_Execute InitializeReduceFunc e s = Ret None s' ->
      exists work rows,
        Forall is_work_call work /\
        calls s' = calls s ++ map OpenCall (all_mapper_ids (jobs e)) ++ work
                   ++ map CloseCall (all_mapper_ids (jobs e)) /\
        List.length rows = List.length (jobs e) /\
        out s' = out s ++ map Send rows ++ [CloseChan]) /\
  (forall s',
      Executor_Execute InitializeReduceFunc e s = Panic s' ->
      exists work rows,
        Forall is_work_call work /\
        calls s' = calls s ++ map OpenCall (all_mapper_ids (jobs e)) ++ work
                   ++ map CloseCall (all_mapper_ids (jobs e)) /\
        (List.length rows < List.length (jobs e))%nat /\
        out s' = out s ++ map Send rows).
Proof.
  intros Hop. unfold Executor_Execute, bind.
  rewrite (open_jobs_ok e (jobs e) s w Hop).
  set (s0 := {| world := w;
                calls := calls s ++ map OpenCall (all_mapper_ids (jobs e));
                out := out s |}).
  destruct (run_jobs_calls (jobs e) s0) as (work & Hwork & Hrun).
  pose proof (Executor_execute_Ret InitializeReduceFunc e s0) as HR.
  pose proof (Executor_execute_Panic InitializeReduceFunc e s0) as HP.
  unfold Executor_execute in *.
  destruct (run_jobs InitializeReduceFunc (jobs e) s0) as [js s1|s1].
  - destruct Hrun as [Hcalls Hids].
    unfold bind, close_chan in *. rewrite close_jobs_exact in *.
    simpl in *. unfold ret. split; [|split].
    + intros err s' H. discriminate.
    + intros s' H. injection H as <-. simpl.
      destruct (HR _ eq_refl) as (rows & s2 & Hrows & Hout).
      exists work, rows. split; [exact Hwork|].
      rewrite Hcalls, Hids, <- !app_assoc. split; [reflexivity|].
      split; [apply (emits_in_order_out _ _ _ _ _ Hrows)|exact Hout].
    + intros s' H. discriminate.
  - unfold Executor_close in *. rewrite close_jobs_exact in *.
    split; [|split].
    + intros err s' H. discriminate.
    + intros s' H. discriminate.
    + intros s' H. injection H as <-. simpl.
      destruct (HP _ eq_refl) as (rows & Hlen & Hout).
      exists work, rows. split; [exact Hwork|].
      rewrite Hrun. subst s0. simpl in *. rewrite <- !app_assoc. auto.
Qed.

(** *** The planner *)

(** [Plan] calls no mapper and sends nothing.  The executor it returns
    holds the jobs of the transaction, each with the normalized interval
    and the statement of the executor; that statement is the one given
    with its condition rewritten for the current time.  A failure of
    [DB.Begin] is returned as it is, and dimensions that do not normalize
    are rejected after the transaction has begun, without asking it for
    jobs. *)
Theorem Plan_imprints_jobs (p : Planner World Expr)
  (st : SelectStatement Expr) (s : St World) :
  (exists r s',
      Planner_Plan Reduce_now p st s = Ret r s' /\
      calls s' = calls s /\ out s' = out s) /\
  (forall e s',
      Planner_Plan Reduce_now p st s = Ret (inl e) s' ->
      Executor_interval e = fst (fst (Dimensions_Normalize st)) /\
      Executor_stmt e =
        set_Condition st (Reduce_now (Now p (world s)) (Condition st)) /\
      Forall (fun j => interval j = Executor_interval e /\
                       stmt j = Executor_stmt e)
             (jobs e)) /\
  (forall err w,
      Begin (pDB p) (world s) = (inr err, w) ->
      Planner_Plan Reduce_now p st s = Ret (inr err) (set_world s w)) /\
  (forall t w err,
      Begin (pDB p) (world s) = (inl t, w) ->
      snd (Dimensions_Normalize st) = Some err ->
      Planner_Plan Reduce_now p st s = Ret (inr err) (set_world s w)).
Proof.
  unfold Planner_Plan. cbn [Dimensions_Normalize set_Condition].
  split; [|split; [|split]].
  - destruct (Begin (pDB p) (world s)) as [[t|er] w]; [|eauto].
    destruct (Dimensions_Normalize st) as [[i tags] [er|]]; [eauto|].
    match goal with
    | |- context [CreateMapReduceJobs t ?a ?b ?c] =>
        destruct (CreateMapReduceJobs t a b c) as [[js|er] w']
    end; eauto.
  - intros e s' H.
    destruct (Begin (pDB p) (world s)) as [[t|er] w]; [|discriminate].
    destruct (Dimensions_Normalize st) as [[i tags] [er|]]; [discriminate|].
    match type of H with
    | context [CreateMapReduceJobs t ?a ?b ?c] =>
        destruct (CreateMapReduceJobs t a b c) as [[js|er] w']
    end; [|discriminate].
    injection H as <- _. simpl. repeat split.
    apply Forall_forall. intros j Hj. apply in_map_iff in Hj.
    destruct Hj as (j0 & <- & _). split; reflexivity.
  - intros err w H. rewrite H. reflexivity.
  - intros t w err H Herr. rewrite H.
    destruct (Dimensions_Normalize st) as [[i tags] o]. simpl in Herr.
    subst o. reflexivity.
Qed.

End Traces.

Section RawRows.

Context {World Expr : Type}.

Local Abbreviation Job := (MapReduceJob World Expr).

Lemma raw_row_length names single v vals :
  (single = true -> List.length names = 2%nat) ->
  raw_row names single v = Some vals ->
  List.length vals = List.length names.
Proof.
  intros Hs. unfold raw_row. destruct v as [v|]; [|discriminate].
  destruct single.
  - rewrite (Hs eq_refl).
    destruct (values v); intros H; try discriminate;
      injection H as <-; reflexivity.
  - destruct (values v); try discriminate. intros H. injection H as <-.
    unfold raw_fields_row. apply length_map.
Qed.

Lemma raw_rows_shape names single l acc res :
  (single = true -> List.length names = 2%nat) ->
  raw_rows names single l acc = Some res ->
  exists new,
    res = acc ++ new /\
    List.length new = List.length l /\
    Forall (fun vals => List.length vals = List.length names) new.
Proof.
  intros Hs. revert acc. induction l as [|v l IH]; intros acc H; simpl in H.
  - injection H as <-. exists []. rewrite app_nil_r. auto.
  - destruct (raw_row names single v) as [vals|] eqn:Hv; [|discriminate].
    destruct (IH _ H) as (new & -> & Hlen & Hall).
    exists (vals :: new). rewrite <- app_assoc. simpl.
    repeat split; [congruence|].
    constructor; [|exact Hall]. eapply raw_row_length; eassumption.
Qed.

Lemma raw_row_ok names single v :
  raw_row names single v <> None <-> record_ok single v.
Proof.
  unfold raw_row, record_ok. destruct v as [v|]; [|tauto].
  destruct single; destruct (values v); split; intros H;
    try congruence; try discriminate; eauto;
    try (destruct H as [f Hf]; discriminate).
Qed.

Lemma raw_rows_ok names single l acc :
  raw_rows names single l acc <> None <-> Forall (record_ok single) l.
Proof.
  revert acc. induction l as [|v l IH]; intros acc; simpl.
  - split; [constructor|discriminate].
  - destruct (raw_row names single v) as [vals|] eqn:Hv.
    + rewrite IH. split.
      * intros H. constructor; [|exact H].
        apply (raw_row_ok names). congruence.
      * intros H. inversion H. assumption.
    + split; [congruence|]. intros H. inversion H as [|x y Hx Hy]; subst.
      apply (raw_row_ok names) in Hx. congruence.
Qed.

(** Every row returned by [processRawResults] is well formed: it has the
    name and tags of the job, no error, "time" among its columns, and
    every value row has as many entries as there are columns; there is
    one value row per raw record of the first bucket. *)
Theorem processRawResults_row_shape (m : Job) rv row :
  processRawResults m rv = Some row ->
  Row.Name row = MeasurementName m /\
  Row.Tags row = TagSet.Tags (TagSet m) /\
  Row.Err row = None /\
  Row.Columns row = raw_columns m /\
  In "time" (Row.Columns row) /\
  Forall (fun vals => List.length vals = List.length (Row.Columns row))
         (Row.Values row) /\
  (forall first rest outs,
      rv = first :: rest -> List.length first = 2%nat ->
      nth 1 first VNil = VRaw outs ->
      List.length (Row.Values row) = List.length outs).
Proof.
  assert (Htime : In "time" (raw_columns m)).
  { unfold raw_columns.
    destruct (existsb (fun n => String.eqb n "time") (NamesInSelect (stmt m)))
      eqn:He; [|left; reflexivity].
    apply existsb_exists in He. destruct He as (n & Hin & Hn).
    apply String.eqb_eq in Hn. subst n. exact Hin. }
  unfold processRawResults. fold (raw_columns m). intros H.
  destruct rv as [|first rest]; [discriminate|].
  destruct (Nat.eqb (List.length first) 2) eqn:Hlen; simpl in H.
  - destruct (nth 1 first VNil) as [| | | | | |outs] eqn:Hnth;
      try discriminate.
    destruct (raw_rows (raw_columns m)
                (Nat.eqb (List.length (raw_columns m)) 2) outs [])
      as [vals|] eqn:Hrows; [|discriminate].
    injection H as <-. simpl.
    destruct (raw_rows_shape _ _ _ _ _
                (fun E => proj1 (Nat.eqb_eq _ _) E) Hrows)
      as (new & -> & Hl & Hall).
    simpl. repeat split; try assumption.
    intros first' rest' outs' E _ Hn. injection E as <- <-.
    rewrite Hnth in Hn. injection Hn as <-. exact Hl.
  - injection H as <-. simpl. repeat split; try assumption; [constructor|].
    intros first' rest' outs' E Hl2 _. injection E as <- <-.
    apply Nat.eqb_neq in Hlen. contradiction.
Qed.

(** [processRawResults] returns, rather than panics, exactly when there is
    a first bucket and either it has not two entries, or its second entry
    is a slice of raw records that are all accepted by the conversion
    loop. *)
Theorem processRawResults_returns_iff (m : Job) rv :
  processRawResults m rv <> None <->
  exists first rest,
    rv = first :: rest /\
    (List.length first <> 2%nat \/
     exists outs,
       nth 1 first VNil = VRaw outs /\
       Forall (record_ok (Nat.eqb (List.length (raw_columns m)) 2)) outs).
Proof.
  unfold processRawResults. fold (raw_columns m).
  destruct rv as [|first rest].
  - split; [congruence|]. intros (f & r & H & _). discriminate.
  - destruct (Nat.eqb (List.length first) 2) eqn:Hlen; simpl.
    + apply Nat.eqb_eq in Hlen. split.
      * intros H. exists first, rest. split; [reflexivity|]. right.
        destruct (nth 1 first VNil) as [| | | | | |outs]; try congruence.
        exists outs. split; [reflexivity|].
        apply (raw_rows_ok (raw_columns m) _ outs []).
        destruct (raw_rows (raw_columns m)
                    (Nat.eqb (List.length (raw_columns m)) 2) outs []);
          congruence.
      * intros (f & r & E & [Hne|(outs & Hn & Hall)]); injection E as <- <-;
          [contradiction|].
        rewrite Hn.
        apply (raw_rows_ok (raw_columns m) _ outs []) in Hall.
        destruct (raw_rows (raw_columns m)
                    (Nat.eqb (List.length (raw_columns m)) 2) outs []);
          congruence.
    + apply Nat.eqb_neq in Hlen. split; [|discriminate].
      intros _. exists first, rest. auto.
Qed.

Lemma raw_rows_fields names recs acc :
  Forall (fun v => exists fields, values v = VFields fields) recs ->
  raw_rows names false (map (@Some rawQueryMapOutput) recs) acc =
  Some (acc ++ map (fun v => raw_fields_row names v (fields_of v)) recs).
Proof.
  intros H. revert acc. induction H as [|v recs [f Hf] _ IH]; intros acc; simpl.
  - rewrite app_nil_r. reflexivity.
  - unfold fields_of. rewrite Hf, IH, <- app_assoc. reflexivity.
Qed.

(** When the columns are not exactly two and the first bucket is
    [[t, records]], each record carrying a field map gives one value row,
    in the order of the records, with one entry per column in the order
    of the columns: the UTC time of the record under "time", the field of
    that name elsewhere, nil when the record has no such field. *)
Theorem processRawResults_field_maps (m : Job) t recs rest :
  List.length (raw_columns m) <> 2%nat ->
  Forall (fun v => exists fields, values v = VFields fields) recs ->
  processRawResults m ([t; VRaw (map (@Some rawQueryMapOutput) recs)] :: rest) =
  Some {| Row.Name := MeasurementName m;
          Row.Tags := TagSet.Tags (TagSet m);
          Row.Columns := raw_columns m;
          Row.Values :=
            map (fun v =>
                   map (fun n => if String.eqb n "time"
                                 then VTime (utc (timestamp v))
                                 else field_lookup (fields_of v) n)
                       (raw_columns m))
                recs;
          Row.Err := None |}.
Proof.
  intros Hlen Hrecs. unfold processRawResults. fold (raw_columns m).
  apply Nat.eqb_neq in Hlen. rewrite Hlen.
  cbn [List.length Nat.eqb negb nth].
  rewrite (raw_rows_fields _ _ [] Hrecs). reflexivity.
Qed.

End RawRows.

(** ** One row for each call of Execute *)

Section Emission.

Context {World Expr : Type}.
Variable InitializeReduceFunc : option Call.t -> ReduceFunc * option error.

Local Abbreviation Job := (MapReduceJob World Expr).
Local Abbreviation Execute := (MapReduceJob_Execute InitializeReduceFunc).










End Emission.

(** ** Concrete runs *)

Section Runs.

Import Examples.

Local Abbreviation Exec := (MapReduceJob_Execute registry).

Lemma Open_closes_every_mapper_on_failure_run :
  MapReduceJob_Open half_open_job (start []) =
  Ret (Some "open failed")
      {| world := [];
         calls := [OpenCall 0; OpenCall 1; CloseCall 0; CloseCall 1; CloseCall 2];
         out := [] |}
  /\
  MapReduceJob_Open two_buckets (start []) =
  Ret None {| world := []; calls := [OpenCall 0]; out := [] |}.
Proof.
  split.
  - apply (proj1 (Open_closes_every_mapper_on_failure half_open_job (start []))
                 [replay 0] (unopenable 1) [replay 2] [] []); reflexivity.
  - apply (proj2 (Open_closes_every_mapper_on_failure two_buckets (start []))
                 []); reflexivity.
Defined.

Lemma Execute_reducer_failure_row_run :
  Exec bogus_job (start [VInt 3; VInt 7]) =
  Ret bogus_job
      {| world := [VInt 3; VInt 7];
         calls := [];
         out := [Send {| Row.Name := ""; Row.Tags := []; Row.Columns := [];
                         Row.Values := [];
                         Row.Err := Some "unknown aggregate" |}] |}
  /\ MeasurementName bogus_job = "m"
  /\ TagSet.Tags (TagSet bogus_job) = [("host", "a")].
Proof.
  split; [|split; reflexivity].
  apply (Execute_reducer_failure_row registry bogus_job (start [VInt 3; VInt 7])
           [] bogus_call [] "unknown aggregate").
  - reflexivity.
  - constructor.
  - reflexivity.
Defined.

Lemma processRawResults_no_results_run :
  processRawResults raw_job [] = None
  /\
  processRawResults raw_job [[VTime (utc 0)]] =
  Some {| Row.Name := "m"; Row.Tags := [("host", "a")];
          Row.Columns := ["time"; "v"]; Row.Values := []; Row.Err := None |}.
Proof.
  split.
  - apply (proj1 (processRawResults_no_results raw_job)).
  - apply (proj2 (processRawResults_no_results raw_job) [VTime (utc 0)] []).
    simpl. lia.
Defined.

Lemma processRawResults_single_value_run :
  processRawResults raw_job
    [[VTime (utc 0); VRaw (map (@Some rawQueryMapOutput) raw_records)]] =
  Some {| Row.Name := "m"; Row.Tags := [("host", "a")];
          Row.Columns := ["time"; "v"];
          Row.Values := [[VTime (utc 5); VString "a"];
                         [VTime (utc 9); VString "b"]];
          Row.Err := None |}.
Proof.
  apply (proj2 (processRawResults_single_value raw_job eq_refl)
               (VTime (utc 0)) raw_records []).
  - reflexivity.
  - repeat constructor; discriminate.
Defined.


Lemma Execute_columns_run :
  exists m' s' r,
    AggregateCalls (stmt two_buckets) <> [] /\
    Exec two_buckets (start [VInt 3; VInt 7]) = Ret m' s' /\
    out s' = out (start [VInt 3; VInt 7]) ++ [Send r] /\
    Row.Err r = None /\
    List.length (Row.Columns r) = 2%nat /\
    nth_error (Row.Columns r) 0 = Some "time" /\
    (forall i c, nth_error (AggregateCalls (stmt two_buckets)) i = Some c ->
                 nth_error (Row.Columns r) (i + 1) = Some (Call.Name c)) /\
    (forall vals, In vals (Row.Values r) ->
                  List.length vals = List.length (Row.Columns r)).
Proof.
  eexists _, _, _.
  assert (Hagg : AggregateCalls (stmt two_buckets) <> []) by discriminate.
  split; [exact Hagg|].
  split; [lazy; reflexivity|]. split; [reflexivity|]. split; [reflexivity|].
  exact (Execute_columns registry two_buckets _ (start [VInt 3; VInt 7]) _ _
           Hagg eq_refl eq_refl eq_refl).
Defined.

Lemma Execute_bucket_count_run :
  exists m' s' r,
    0 < interval two_buckets /\
    0 < TMin two_buckets /\
    AggregateCalls (stmt two_buckets) <> [] /\
    Exec two_buckets (start [VInt 3; VInt 7]) = Ret m' s' /\
    out s' = out (start [VInt 3; VInt 7]) ++ [Send r] /\
    Row.Err r = None /\
    int64_job two_buckets /\
    in_int64 (Z.quot 29 10 * 10 + 10 - 10) /\
    Z.of_nat (List.length (Row.Values r)) = Z.quot (Z.quot 29 10 * 10 + 10 - 10) 10.
Proof.
  eexists _, _, _.
  assert (Hi : 0 < interval two_buckets) by reflexivity.
  assert (Ht : 0 < TMin two_buckets) by reflexivity.
  assert (Hagg : AggregateCalls (stmt two_buckets) <> []) by discriminate.
  assert (Hjob : int64_job two_buckets)
    by (repeat split; vm_compute; discriminate).
  assert (Hnum : in_int64 (Z.quot 29 10 * 10 + 10 - 10))
    by (split; vm_compute; discriminate).
  repeat (split; [first [assumption | reflexivity | lazy; reflexivity]|]).
  exact (proj2 (Execute_bucket_count registry two_buckets _
                  (start [VInt 3; VInt 7]) _ _
                  Hi Ht Hagg eq_refl eq_refl eq_refl) Hjob Hnum).
Defined.

Lemma Execute_time_entries_run :
  exists m' s' r,
    int64_job two_buckets /\
    TMin two_buckets <= TMax two_buckets /\
    0 <= interval two_buckets /\
    AggregateCalls (stmt two_buckets) <> [] /\
    Exec two_buckets (start [VInt 3; VInt 7]) = Ret m' s' /\
    out s' = out (start [VInt 3; VInt 7]) ++ [Send r] /\
    Row.Err r = None /\
    0 < effective_interval two_buckets /\
    Row.Values r = [[VTime (utc 10); VInt 3]; [VTime (utc 20); VInt 7]] /\
    nth_error [VTime (utc 20); VInt 7] 0 =
    Some (VTime (utc (TMin two_buckets +
                      Z.of_nat 1 * effective_interval two_buckets))) /\
    Before (utc 10) (utc 20).
Proof.
  eexists _, _, _.
  assert (Hjob : int64_job two_buckets)
    by (repeat split; vm_compute; discriminate).
  assert (Hle : TMin two_buckets <= TMax two_buckets)
    by (vm_compute; discriminate).
  assert (Hwidth : 0 <= interval two_buckets) by (vm_compute; discriminate).
  assert (Hagg : AggregateCalls (stmt two_buckets) <> []) by discriminate.
  assert (Hpos : 0 < effective_interval two_buckets) by reflexivity.
  do 9 (split; [first [assumption | reflexivity | lazy; reflexivity]|]).
  split.
  - exact (proj1 (Execute_time_entries registry two_buckets _
                    (start [VInt 3; VInt 7]) _ _
                    Hjob Hle Hwidth Hagg eq_refl eq_refl eq_refl)
                 1%nat _ eq_refl).
  - exact (proj2 (Execute_time_entries registry two_buckets _
                    (start [VInt 3; VInt 7]) _ _
                    Hjob Hle Hwidth Hagg eq_refl eq_refl eq_refl)
                 Hpos
                 0%nat 1%nat _ _ _ _ (le_n 1) eq_refl eq_refl eq_refl eq_refl).
Defined.



Lemma execute_continues_after_error_row_run :
  exists r r2 s',
    Row.Err r = Some "shard unavailable" /\
    Row.Err r2 = None /\
    Row.Tags r2 = [("host", "a")] /\
    Executor_execute registry mixed_executor (start [VInt 3; VInt 7]) = Ret tt s' /\
    out s' = [Send r; Send r2; CloseChan].
Proof.
  destruct (Exec failing_job (start [VInt 3; VInt 7])) as [j1 s1|] eqn:H1;
    [|discriminate].
  destruct (Exec two_buckets s1) as [j2 s2|] eqn:H2;
    [|injection H1 as <- <-; discriminate].
  destruct (proj1 (execute_continues_after_error_row registry mixed_executor
                     (start [VInt 3; VInt 7]))
                  [] failing_job [two_buckets] [] (start [VInt 3; VInt 7])
                  j1 s1 (error_row failing_job "shard unavailable")
                  "shard unavailable"
                  [{| Row.Name := "m"; Row.Tags := [("host", "a")];
                      Row.Columns := ["time"; "sum"];
                      Row.Values := [[VTime (utc 10); VInt 3];
                                     [VTime (utc 20); VInt 7]];
                      Row.Err := None |}]
                  s2)
    as (s' & Hrun & Hout).
  - reflexivity.
  - constructor.
  - exact H1.
  - injection H1 as <- <-. reflexivity.
  - reflexivity.
  - econstructor; [exact H2| |constructor].
    injection H1 as <- <-. injection H2 as <- <-. reflexivity.
  - eexists _, _, s'. repeat split; try exact Hrun; try exact Hout; reflexivity.
Defined.

Lemma rows_follow_job_list_run :
  exists e s1 s2,
    Planner_Plan keep_condition unsorted_planner sum_stmt (start [VInt 1; VInt 2])
    = Ret (inl e) s1 /\
    Executor_Execute registry e s1 = Ret None s2 /\
    exists s0 rows s3,
      open_jobs e (jobs e) s1 = Ret None s0 /\
      emits_in_order registry (jobs e) s0 rows s3 /\
      List.length rows = List.length (jobs e) /\
      out s2 = out s1 ++ map Send rows ++ [CloseChan].
Proof.
  eexists _, _, _.
  split; [lazy; reflexivity|]. split; [lazy; reflexivity|].
  exact (proj2 (rows_follow_job_list registry keep_condition unsorted_planner
                  sum_stmt (start [VInt 1; VInt 2]) _ _ eq_refl)
               _ eq_refl).
Defined.

(** C1 (as stated) fails: a job with interval 10, TMin 10, TMax 29 and one
    aggregate call whose mapper fails sends an error row without value
    rows, where the formula asks for two. *)
Lemma error_row_has_no_value_rows :
  0 < interval failing_job /\
  0 < TMin failing_job /\
  AggregateCalls (stmt failing_job) <> [] /\
  Z.quot (Z.quot (TMax failing_job) (interval failing_job)
          * interval failing_job + interval failing_job - TMin failing_job)
         (interval failing_job) = 2 /\
  exists m' r,
    Exec failing_job (start [VInt 3; VInt 7]) =
    Ret m' {| world := [VInt 3; VInt 7];
              calls := [BeginCall 0 (Some sum_call) 10; NextIntervalCall 0 10];
              out := [Send r] |} /\
    Row.Err r = Some "shard unavailable" /\
    List.length (Row.Values r) = 0%nat.
Proof.
  split; [reflexivity|]. split; [reflexivity|]. split; [discriminate|].
  split; [reflexivity|].
  eexists _, _. split; [lazy; reflexivity|]. split; reflexivity.
Qed.

(** C3 (as stated) fails: the transaction returns the job of key "b"
    before the job of key "a"; the planner keeps that order and the row
    of "b" is sent before the row of "a". *)
Lemma rows_not_in_key_order :
  exists e s1 s2 rb ra,
    Planner_Plan keep_condition unsorted_planner sum_stmt (start [VInt 1; VInt 2])
    = Ret (inl e) s1 /\
    map (fun j => TagSet.Key (TagSet j)) (jobs e)
    = [bytes_of_string "b"; bytes_of_string "a"] /\
    Executor_Execute registry e s1 = Ret None s2 /\
    out s2 = [Send rb; Send ra; CloseChan] /\
    Row.Tags rb = [("host", "b")] /\
    Row.Tags ra = [("host", "a")] /\
    Row.Err rb = None /\ Row.Err ra = None /\
    bytes_Compare (bytes_of_string "b") (bytes_of_string "a") = 1 /\
    ~ keys_ascending (jobs e).
Proof.
  eexists _, _, _, _, _.
  split; [lazy; reflexivity|]. split; [reflexivity|].
  split; [lazy; reflexivity|].
  repeat (split; [reflexivity|]).
  intros H. inversion H as [|j js _ Hall]; subst.
  inversion Hall as [|j' js' Hba _]; subst.
  apply Hba. reflexivity.
Qed.

(** *** The scenarios of the specification *)

Example scenario_sum_single_bucket :
  sent_rows (Exec (job "a" [replay 0] 0 100 0 sum_stmt) (start [VInt 42])) =
  [{| Row.Name := "m"; Row.Tags := [("host", "a")];
      Row.Columns := ["time"; "sum"];
      Row.Values := [[VTime (utc 0); VInt 42]]; Row.Err := None |}].
Proof. reflexivity. Qed.

Example scenario_one_bucket :
  Exec (job "a" [replay 0] 10 19 10 sum_stmt) (start [VInt 3; VInt 7]) =
  Ret (job "a" [replay 0] 10 19 10 sum_stmt)
      {| world := [VInt 7];
         calls := [BeginCall 0 (Some sum_call) 10; NextIntervalCall 0 10];
         out := [Send {| Row.Name := "m"; Row.Tags := [("host", "a")];
                         Row.Columns := ["time"; "sum"];
                         Row.Values := [[VTime (utc 10); VInt 3]];
                         Row.Err := None |}] |}.
Proof. reflexivity. Qed.

Example scenario_two_buckets :
  sent_rows (Exec two_buckets (start [VInt 3; VInt 7])) =
  [{| Row.Name := "m"; Row.Tags := [("host", "a")];
      Row.Columns := ["time"; "sum"];
      Row.Values := [[VTime (utc 10); VInt 3]; [VTime (utc 20); VInt 7]];
      Row.Err := None |}].
Proof. reflexivity. Qed.

Example scenario_raw_single_value :
  sent_rows (Exec raw_job
               (start [VRaw (map (@Some rawQueryMapOutput) raw_records)])) =
  [{| Row.Name := "m"; Row.Tags := [("host", "a")];
      Row.Columns := ["time"; "v"];
      Row.Values := [[VTime (utc 5); VString "a"]; [VTime (utc 9); VString "b"]];
      Row.Err := None |}].
Proof. reflexivity. Qed.

Example scenario_raw_multi_field :
  sent_rows
    (Exec (job "a" [replay 0] 0 100 0 (stmt_of [] ["time"; "x"; "y"] 0))
       (start [VRaw [Some (RawOutput 1 (VFields [("x", VInt 10); ("y", VInt 20)]));
                     Some (RawOutput 2 (VFields [("x", VInt 11); ("y", VInt 21)]))]])) =
  [{| Row.Name := "m"; Row.Tags := [("host", "a")];
      Row.Columns := ["time"; "x"; "y"];
      Row.Values := [[VTime (utc 1); VInt 10; VInt 20];
                     [VTime (utc 2); VInt 11; VInt 21]];
      Row.Err := None |}].
Proof. reflexivity. Qed.

Example scenario_second_job_errors :
  Executor_Execute registry
    {| tx := unsorted_tx; Executor_stmt := sum_stmt;
       jobs := [two_buckets; failing_job]; Executor_interval := 10 |}
    (start [VInt 3; VInt 7]) =
  Ret None
      {| world := [];
         calls := [OpenCall 0; OpenCall 0;
                   BeginCall 0 (Some sum_call) 10;
                   NextIntervalCall 0 10; NextIntervalCall 0 10;
                   BeginCall 0 (Some sum_call) 10; NextIntervalCall 0 10;
                   CloseCall 0; CloseCall 0];
         out := [Send {| Row.Name := "m"; Row.Tags := [("host", "a")];
                         Row.Columns := ["time"; "sum"];
                         Row.Values := [[VTime (utc 10); VInt 3];
                                        [VTime (utc 20); VInt 7]];
                         Row.Err := None |};
                 Send {| Row.Name := "m"; Row.Tags := [("host", "b")];
                         Row.Columns := []; Row.Values := [];
                         Row.Err := Some "shard unavailable" |};
                 CloseChan] |}.
Proof. reflexivity. Qed.

(** A start time above the end time makes the bucket count negative: the
    allocation of the buckets panics and no row is sent. *)
Example negative_bucket_count_panics :
  Exec (job "a" [replay 0] 100 10 10 sum_stmt) (start [VInt 3]) =
  Panic (start [VInt 3]).
Proof. reflexivity. Qed.


(** C9 (as stated) fails: the raw query selects the single field [v],
    "time" is prepended and makes two columns; of the two records
    [(5, "a")] and [(9, nil)] the second has a nil payload, the assertion
    on the payload panics, and neither record has its value row.  A nil
    pointer among the records has the same effect. *)
Lemma nil_payload_gives_no_row :
  AggregateCalls (stmt raw_job) = [] /\
  existsb (fun n => String.eqb n "time") (NamesInSelect (stmt raw_job)) = false /\
  List.length ("time" :: NamesInSelect (stmt raw_job)) = 2%nat /\
  nil_payload_records =
  [Some (RawOutput 5 (VString "a")); Some (RawOutput 9 VNil)] /\
  processRawResults raw_job [[VTime (utc 0); VRaw nil_payload_records]] = None /\
  processRawResults raw_job
    [[VTime (utc 0); VRaw [Some (RawOutput 5 (VString "a")); None]]] = None.
Proof. repeat split. Qed.

(** The raw query over the gathering reducer: one row, a value row per
    record. *)
Example raw_run :
  exists m' s',
    MapReduceJob_Execute raw_registry raw_job
      (start [VRaw (map (@Some rawQueryMapOutput) raw_records)]) = Ret m' s' /\
    out s' = [Send {| Row.Name := "m"; Row.Tags := [("host", "a")];
                      Row.Columns := ["time"; "v"];
                      Row.Values := [[VTime (utc 5); VString "a"];
                                     [VTime (utc 9); VString "b"]];
                      Row.Err := None |}].
Proof. eexists _, _. split; [lazy; reflexivity|reflexivity]. Qed.

(** Outside the data model, with a start time above the end time
    ([TMin = MaxInt64], [TMax = MinInt64 + 1], interval 1), the job still
    completes without error: its three buckets start at [MaxInt64],
    [MinInt64] and [MinInt64 + 1], the [int64] sum [TMin + i] wrapping
    around. *)
Example bucket_times_wrap_around :
  AggregateCalls (stmt wrapping_job) <> [] /\
  0 < effective_interval wrapping_job /\
  TMax wrapping_job < TMin wrapping_job /\
  exists m' s' r,
    Exec wrapping_job (start [VInt 1; VInt 2; VInt 3]) = Ret m' s' /\
    out s' = [Send r] /\
    Row.Err r = None /\
    Row.Values r = [[VTime (utc MaxInt64); VInt 1];
                    [VTime (utc MinInt64); VInt 2];
                    [VTime (utc (MinInt64 + 1)); VInt 3]] /\
    ~ Before (utc MaxInt64) (utc MinInt64) /\
    Before (utc MinInt64) (utc MaxInt64).
Proof.
  split; [discriminate|]. split; [reflexivity|]. split; [reflexivity|].
  eexists _, _, _. split; [lazy; reflexivity|].
  split; [reflexivity|]. split; [reflexivity|]. split; [reflexivity|].
  split.
  - intros [H|[H _]]; vm_compute in H; discriminate.
  - left. reflexivity.
Qed.

End Runs.

(** ** Concrete runs of the further properties *)

Section MoreRuns.

Import Examples.

Local Abbreviation Exec := (MapReduceJob_Execute registry).

Lemma MapReduceJobs_Less_strict_order_run :
  MapReduceJobs_Less two_buckets failing_job = true /\
  MapReduceJobs_Less failing_job two_buckets = false.
Proof.
  split; [reflexivity|].
  apply (proj1 (proj2 (@MapReduceJobs_Less_strict_order (list value) unit))
               two_buckets failing_job).
  reflexivity.
Defined.

Lemma MapReduceJobs_Less_same_measurement_run :
  key two_buckets = None /\
  key failing_job = None /\
  MeasurementName two_buckets = MeasurementName failing_job /\
  MapReduceJobs_Less two_buckets failing_job =
    (bytes_Compare (bytes_of_string "a") (bytes_of_string "b") =? -1) /\
  MapReduceJobs_Less (snd (MapReduceJob_Key two_buckets))
                     (snd (MapReduceJob_Key failing_job)) =
    MapReduceJobs_Less two_buckets failing_job.
Proof.
  split; [reflexivity|]. split; [reflexivity|]. split; [reflexivity|].
  exact (MapReduceJobs_Less_same_measurement two_buckets failing_job
           eq_refl eq_refl eq_refl).
Defined.

Lemma Swap_exchanges_run :
  MapReduceJobs_Swap [two_buckets; failing_job; raw_job] 0 2
  = Some [raw_job; failing_job; two_buckets] /\
  MapReduceJobs_Swap [raw_job; failing_job; two_buckets] 0 2
  = Some [two_buckets; failing_job; raw_job] /\
  MapReduceJobs_Swap [two_buckets; failing_job; raw_job] 0 3 = None.
Proof.
  split; [reflexivity|]. split.
  - apply (proj2 (Swap_exchanges _ [two_buckets; failing_job; raw_job]
                    0%nat 2%nat)
                 [raw_job; failing_job; two_buckets] eq_refl).
  - apply (proj1 (Swap_exchanges _ [two_buckets; failing_job; raw_job]
                    0%nat 3%nat)).
    right. simpl. lia.
Defined.

Lemma AddFilter_keeps_lists_parallel_run :
  List.length (TagSet.Filters (tagset "a"))
  = List.length (TagSet.SeriesIDs (tagset "a")) /\
  TagSet.SeriesIDs (add_filters (tagset "a") [(1, "f1"); (2, "f2")]) = [1; 2] /\
  TagSet.Filters (add_filters (tagset "a") [(1, "f1"); (2, "f2")])
  = ["f1"; "f2"].
Proof.
  split; [reflexivity|].
  destruct (AddFilter_keeps_lists_parallel (tagset "a")
              [(1, "f1"); (2, "f2")] eq_refl) as (_ & H1 & H2 & _).
  split; [exact H1|exact H2].
Defined.

Example tagsKeys_of_two_tags :
  tagsKeys (row_of_tags [("region", "x"); ("host", "a")])
  = [""; ""; "host"; "region"].
Proof. reflexivity. Qed.

Lemma tagsHash_of_sorted_tags_run :
  ~ In "" (map fst (Row.Tags (row_of_tags [("ab", "c")]))) /\
  ~ In "" (map fst (Row.Tags (row_of_tags [("a", "bc")]))) /\
  tagsHash (row_of_tags [("ab", "c")])
  = fnv_Write fnv_offset64 (bytes_of_string "abc") /\
  tagsHash (row_of_tags [("a", "bc")])
  = fnv_Write fnv_offset64 (bytes_of_string "abc").
Proof.
  assert (H1 : ~ In "" (map fst (Row.Tags (row_of_tags [("ab", "c")]))))
    by (simpl; intros [H|[]]; discriminate).
  assert (H2 : ~ In "" (map fst (Row.Tags (row_of_tags [("a", "bc")]))))
    by (simpl; intros [H|[]]; discriminate).
  split; [exact H1|]. split; [exact H2|]. split.
  - exact (tagsHash_of_sorted_tags _ H1).
  - exact (tagsHash_of_sorted_tags _ H2).
Defined.

Lemma tagsHash_order_independent_run :
  tagsKeys (row_of_tags [("host", "a"); ("region", "x")])
  = tagsKeys (row_of_tags [("region", "x"); ("host", "a")]) /\
  tagsHash (row_of_tags [("host", "a"); ("region", "x")])
  = tagsHash (row_of_tags [("region", "x"); ("host", "a")]).
Proof.
  apply (tagsHash_order_independent
           (row_of_tags [("host", "a"); ("region", "x")])
           (row_of_tags [("region", "x"); ("host", "a")])).
  - simpl. repeat constructor; simpl; intros H;
      repeat (destruct H as [H|H]; try discriminate); exact H.
  - apply perm_swap.
Defined.

Lemma Rows_Less_strict_order_run :
  Rows_Less (row_of_tags [("host", "a"); ("region", "x")])
            (row_of_tags [("region", "x"); ("host", "a")]) = false /\
  Rows_Less (row_of_tags [("region", "x"); ("host", "a")])
            (row_of_tags [("host", "a"); ("region", "x")]) = false.
Proof.
  apply (proj2 (proj2 (proj2 Rows_Less_strict_order))
               (row_of_tags [("host", "a"); ("region", "x")])
               (row_of_tags [("region", "x"); ("host", "a")])).
  - reflexivity.
  - simpl. repeat constructor; simpl; intros H;
      repeat (destruct H as [H|H]; try discriminate); exact H.
  - apply perm_swap.
Defined.

Lemma Execute_mapper_calls_run :
  exists m' s' r,
    Exec two_buckets (start [VInt 3; VInt 7]) = Ret m' s' /\
    out s' = out (start [VInt 3; VInt 7]) ++ [Send r] /\
    Row.Err r = None /\
    calls s' = [BeginCall 0 (Some sum_call) 10;
                NextIntervalCall 0 10; NextIntervalCall 0 10].
Proof.
  eexists _, _, _.
  split; [lazy; reflexivity|]. split; [reflexivity|]. split; [reflexivity|].
  exact (Execute_mapper_calls registry two_buckets _ (start [VInt 3; VInt 7])
           _ _ eq_refl eq_refl eq_refl).
Defined.

Lemma Execute_calls_only_Begin_and_NextInterval_run :
  exists m' s' l,
    Exec failing_job (start []) = Ret m' s' /\
    Forall (work_call 10 10) l /\
    calls s' = calls (start []) ++ l.
Proof.
  destruct (Execute_calls_only_Begin_and_NextInterval registry failing_job
              (start [])) as (l & Hl & HR & _).
  eexists _, _, l. split; [lazy; reflexivity|]. split; [exact Hl|].
  apply (HR _ _ eq_refl).
Defined.

Lemma Execute_single_bucket_run :
  exists m' s' r,
    AggregateCalls (stmt whole_range_job) <> [] /\
    (TMin whole_range_job = 0 \/ interval whole_range_job = 0) /\
    in_int64 (TMin whole_range_job) /\
    Exec whole_range_job (start [VInt 42; VInt 1]) = Ret m' s' /\
    out s' = out (start [VInt 42; VInt 1]) ++ [Send r] /\
    Row.Err r = None /\
    interval m' = 100 /\
    Row.Values r = [[VTime (utc 0); VInt 42]] /\
    calls s' = [BeginCall 0 (Some sum_call) 0; BeginCall 1 (Some sum_call) 0;
                NextIntervalCall 0 100; NextIntervalCall 1 100].
Proof.
  eexists _, _, _.
  assert (Hagg : AggregateCalls (stmt whole_range_job) <> []) by discriminate.
  assert (Hz : TMin whole_range_job = 0 \/ interval whole_range_job = 0)
    by (left; reflexivity).
  assert (Hin : in_int64 (TMin whole_range_job))
    by (split; vm_compute; discriminate).
  split; [exact Hagg|]. split; [exact Hz|]. split; [exact Hin|].
  split; [lazy; reflexivity|]. split; [reflexivity|]. split; [reflexivity|].
  destruct (Execute_single_bucket registry whole_range_job _
              (start [VInt 42; VInt 1]) _ _ Hagg Hz Hin
              eq_refl eq_refl eq_refl) as (Hm & _ & Hcalls).
  split; [reflexivity|]. split; [reflexivity|]. exact Hcalls.
Defined.

Lemma Execute_Begin_failure_run :
  Exec begin_failing_job (start [VInt 3]) =
  Ret begin_failing_job
      {| world := [VInt 3];
         calls := [BeginCall 0 (Some sum_call) 10;
                   BeginCall 1 (Some sum_call) 10];
         out := [Send {| Row.Name := "m"; Row.Tags := [("host", "a")];
                         Row.Columns := []; Row.Values := [];
                         Row.Err := Some "begin failed" |}] |}.
Proof.
  apply (Execute_Begin_failure registry begin_failing_job (start [VInt 3])
           [fst (registry (Some sum_call))] (Some sum_call)
           [replay 0] (unbeginnable 1) [replay 2] [VInt 3] [VInt 3]
           "begin failed").
  - reflexivity.
  - vm_compute. discriminate.
  - reflexivity.
  - reflexivity.
  - reflexivity.
  - reflexivity.
Defined.

Lemma Execute_overwrites_interval_only_run :
  exists m' s',
    Exec whole_range_job (start [VInt 42; VInt 1]) = Ret m' s' /\
    single_bucket whole_range_job = true /\
    interval whole_range_job = 0 /\
    interval m' = 100 /\
    Mappers m' = Mappers whole_range_job.
Proof.
  eexists _, _. split; [lazy; reflexivity|].
  destruct (Execute_overwrites_interval_only registry whole_range_job _
              (start [VInt 42; VInt 1]) _ eq_refl)
    as (_ & _ & Hm & _ & _ & _ & _ & _ & Hi).
  split; [reflexivity|]. split; [reflexivity|].
  split; [exact (Hi eq_refl eq_refl)|exact Hm].
Defined.

Lemma Executor_Execute_open_failure_run :
  Executor_Execute registry half_open_executor (start [VInt 3; VInt 7]) =
  Ret (Some "open failed")
      {| world := [VInt 3; VInt 7];
         calls := [OpenCall 0; OpenCall 0; OpenCall 1;
                   CloseCall 0; CloseCall 1; CloseCall 2;
                   CloseCall 0; CloseCall 0; CloseCall 1; CloseCall 2];
         out := [] |}.
Proof.
  apply (Executor_Execute_open_failure registry half_open_executor
           (start [VInt 3; VInt 7]) [two_buckets] half_open_job []
           [VInt 3; VInt 7] [replay 0] (unopenable 1) [replay 2]
           [VInt 3; VInt 7] [VInt 3; VInt 7] "open failed");
    reflexivity.
Defined.

Lemma Executor_Execute_closes_every_mapper_run :
  exists s' work rows,
    opened_jobs (jobs mixed_executor) (world (start [VInt 3; VInt 7]))
    = Some [VInt 3; VInt 7] /\
    Executor_Execute registry mixed_executor (start [VInt 3; VInt 7])
    = Ret None s' /\
    Forall is_work_call work /\
    calls s' = [OpenCall 0; OpenCall 0] ++ work ++ [CloseCall 0; CloseCall 0] /\
    List.length rows = 2%nat /\
    out s' = map Send rows ++ [CloseChan].
Proof.
  destruct (proj1 (proj2 (Executor_Execute_closes_every_mapper registry
                            mixed_executor (start [VInt 3; VInt 7])
                            [VInt 3; VInt 7] eq_refl))
                  _ eq_refl)
    as (work & rows & Hwork & Hcalls & Hlen & Hout).
  eexists _, work, rows. split; [reflexivity|].
  split; [lazy; reflexivity|].
  split; [exact Hwork|]. split; [exact Hcalls|]. split; [exact Hlen|exact Hout].
Defined.

Lemma Plan_imprints_jobs_run :
  exists e s',
    Planner_Plan keep_condition unsorted_planner sum_stmt (start [])
    = Ret (inl e) s' /\
    Executor_interval e = 10 /\
    Forall (fun j => interval j = 10 /\ stmt j = Executor_stmt e) (jobs e).
Proof.
  eexists _, _. split; [lazy; reflexivity|].
  destruct (proj1 (proj2 (Plan_imprints_jobs keep_condition unsorted_planner
                            sum_stmt (start [])))
                  _ _ eq_refl) as (Hi & _ & Hall).
  split; [exact Hi|exact Hall].
Defined.

Lemma processRawResults_row_shape_run :
  exists row,
    processRawResults raw_job
      [[VTime (utc 0); VRaw (map (@Some rawQueryMapOutput) raw_records)]]
    = Some row /\
    Row.Columns row = ["time"; "v"] /\
    Forall (fun vals => List.length vals = List.length (Row.Columns row))
           (Row.Values row) /\
    List.length (Row.Values row) = 2%nat.
Proof.
  eexists. split; [lazy; reflexivity|].
  match goal with
  | |- Row.Columns ?row = _ /\ _ =>
      destruct (processRawResults_row_shape raw_job
                  [[VTime (utc 0);
                    VRaw (map (@Some rawQueryMapOutput) raw_records)]]
                  row eq_refl)
        as (_ & _ & _ & Hc & _ & Hall & Hlen)
  end.
  split; [exact Hc|]. split; [exact Hall|].
  exact (Hlen _ _ _ eq_refl eq_refl eq_refl).
Defined.

Lemma processRawResults_returns_iff_run :
  processRawResults raw_job [[VTime (utc 0)]] <> None /\
  processRawResults raw_job
    [[VTime (utc 0); VRaw [Some (RawOutput 5 (VString "a"))]]] <> None.
Proof.
  split.
  - apply (proj2 (processRawResults_returns_iff raw_job [[VTime (utc 0)]])).
    exists [VTime (utc 0)], []. split; [reflexivity|]. left. simpl. lia.
  - apply (proj2 (processRawResults_returns_iff raw_job
                    [[VTime (utc 0); VRaw [Some (RawOutput 5 (VString "a"))]]])).
    eexists _, _. split; [reflexivity|]. right.
    eexists. split; [reflexivity|].
    repeat constructor. simpl. discriminate.
Defined.

Lemma processRawResults_field_maps_run :
  processRawResults fields_job
    [[VTime (utc 0); VRaw (map (@Some rawQueryMapOutput) field_records)]] =
  Some {| Row.Name := "m"; Row.Tags := [("host", "a")];
          Row.Columns := ["time"; "x"; "y"];
          Row.Values := [[VTime (utc 1); VInt 10; VInt 20];
                         [VTime (utc 2); VInt 11; VNil]];
          Row.Err := None |}.
Proof.
  apply (processRawResults_field_maps fields_job (VTime (utc 0))
           field_records []).
  - simpl. lia.
  - repeat constructor; eexists; reflexivity.
Defined.

Lemma processAggregate_reduces_rounds_run :
  processAggregate two_mapper_job (Some sum_call) (Some digits)
    [[VTime (utc 10)]; [VTime (utc 20)]]
    (start [VInt 3; VInt 4; VInt 7; VInt 8]) =
  Ret ([[VTime (utc 10); VInt 34]; [VTime (utc 20); VInt 78]], None)
      {| world := [];
         calls := [BeginCall 0 (Some sum_call) 10; BeginCall 1 (Some sum_call) 10;
                   NextIntervalCall 0 10; NextIntervalCall 1 10;
                   NextIntervalCall 0 10; NextIntervalCall 1 10];
         out := [] |}.
Proof.
  apply (processAggregate_reduces_rounds two_mapper_job (Some sum_call) digits
           [[VTime (utc 10)]; [VTime (utc 20)]]
           (start [VInt 3; VInt 4; VInt 7; VInt 8])
           [VInt 3; VInt 4; VInt 7; VInt 8]
           [[VInt 3; VInt 4]; [VInt 7; VInt 8]] []);
    reflexivity.
Defined.

Lemma Execute_error_row_shape_run :
  exists m' s' r,
    Exec failing_job (start []) = Ret m' s' /\
    out s' = out (start []) ++ [Send r] /\
    Row.Err r = Some "shard unavailable" /\
    Row.Columns r = [] /\ Row.Values r = [] /\
    Row.Name r = "m" /\ Row.Tags r = [("host", "b")].
Proof.
  eexists _, _, _.
  split; [lazy; reflexivity|]. split; [reflexivity|]. split; [reflexivity|].
  destruct (proj1 (Execute_error_row_shape registry failing_job _ (start [])
                     _ _ eq_refl eq_refl) "shard unavailable" eq_refl)
    as (Hc & Hv & _).
  split; [exact Hc|]. split; [exact Hv|]. split; reflexivity.
Defined.

End MoreRuns.
